(** * lwjournal: a lightweight systemd-journal logger

    A shallow embedding of package [lwjournal] (the field encoder, the
    caller resolver and its cache, the record assembler, the delivery
    channel and its writer goroutine) together with the properties its
    specification states about them.

    Conventions.
    - A Go [string] and a Go [[]byte] are both sequences of bytes:
      [list byte].
    - [int], [uint64] and [uintptr] are integers [Z]; conversions that
      can wrap are written out.
    - A [*bytes.Buffer] is the sequence of bytes written to it so far;
      a nil pointer is [None].
    - A [map[uintptr][]byte] is a [gmap Z (list byte)]; a nil map is
      [None].
    - A buffered [chan []byte] is the list of the elements it holds,
      oldest first; a nil channel is [None]. *)

From Stdlib Require Import ZArith List Lia Bool.
From Stdlib Require Import Strings.Byte Strings.String.
From stdpp Require Import base option list gmap relations.

Local Open Scope Z_scope.

Abbreviation bytes := (list byte).

#[global] Instance byte_eq_decision : EqDecision byte := Byte.byte_eq_dec.

(** A Go string literal, as its bytes. *)
Definition lit (s : string) : bytes := list_byte_of_string s.

(** ['\n'] *)
Definition NL : byte := x0a.

(** ** Integer conversions *)

Module Conv.

(** [byte(v)]: the low eight bits of an integer. *)
Definition byte_of_Z (v : Z) : byte :=
  match Byte.of_N (Z.to_N (Z.land v 255)) with
  | Some b => b
  | None => x00
  end.

(** [uint64(b)] for a byte [b]. *)
Definition Z_of_byte (b : byte) : Z := Z.of_N (Byte.to_N b).

(** [uint64(n)] for an [int] [n]: reduction modulo [2^64]. *)
Definition uint64 (n : Z) : Z := n mod 2 ^ 64.

End Conv.

(** ** [encoding/binary]: the little-endian byte order *)

Module LittleEndian.
Import Conv.

(** [binary.LittleEndian.PutUint64(b, v)]: the eight bytes stored in
    [b[0..7]]. *)
Definition PutUint64 (v : Z) : bytes :=
  [ byte_of_Z v;
    byte_of_Z (Z.shiftr v 8);
    byte_of_Z (Z.shiftr v 16);
    byte_of_Z (Z.shiftr v 24);
    byte_of_Z (Z.shiftr v 32);
    byte_of_Z (Z.shiftr v 40);
    byte_of_Z (Z.shiftr v 48);
    byte_of_Z (Z.shiftr v 56) ].

End LittleEndian.

(** ** [bytes.Buffer] *)

Module Buffer.

Definition t := bytes.

(** [bytes.NewBuffer(make([]byte, 0, n))], [bytes.NewBuffer(nil)] *)
Definition NewBuffer : t := [].

Definition WriteString (b : t) (s : bytes) : t := b ++ s.
Definition WriteByte (b : t) (c : byte) : t := b ++ [c].
Definition Write (b : t) (p : bytes) : t := b ++ p.
Definition Bytes (b : t) : bytes := b.
Definition Len (b : t) : Z := Z.of_nat (length b).

End Buffer.

(** ** The field encoder *)

(** [writeField(b, name, message)]: the buffer after the five writes. *)
Definition writeField (b : Buffer.t) (name : bytes) (message : bytes) : Buffer.t :=
  let sz := LittleEndian.PutUint64 (Conv.uint64 (Z.of_nat (length message))) in
  let b := Buffer.WriteString b name in
  let b := Buffer.WriteByte b NL in
  let b := Buffer.Write b sz in
  let b := Buffer.Write b message in
  let b := Buffer.WriteByte b NL in
  b.

(** [buildField(name, message)] *)
Definition buildField (name message : bytes) : bytes :=
  let b := Buffer.NewBuffer in
  let b := writeField b name message in
  Buffer.Bytes b.

(** ** Reading the wire format back

    The repository has no decoder: the daemon reads the datagrams.  The
    reader below follows the wire format as the specification words it
    (the name up to the first newline, an eight-byte little-endian
    length, that many value bytes, a newline); it is the yardstick the
    encoder is measured against, not a translation of source code. *)

Module Wire.
Import Conv.

(** The number a sequence of bytes denotes, least significant byte
    first. *)
Fixpoint le_value (bs : bytes) : Z :=
  match bs with
  | [] => 0
  | b :: rest => Z_of_byte b + 256 * le_value rest
  end.

(** Split at the first newline; the newline itself is consumed. *)
Fixpoint read_name (bs : bytes) : option (bytes * bytes) :=
  match bs with
  | [] => None
  | b :: rest =>
      if Byte.eqb b NL then Some ([], rest)
      else match read_name rest with
           | Some (name, rest') => Some (b :: name, rest')
           | None => None
           end
  end.

(** One field: its name, its value, and the bytes that follow it. *)
Definition parse_field (bs : bytes) : option ((bytes * bytes) * bytes) :=
  match read_name bs with
  | None => None
  | Some (name, r1) =>
      if (length r1 <? 8)%nat then None
      else
        let n := Z.to_nat (le_value (firstn 8 r1)) in
        let r2 := skipn 8 r1 in
        if (length r2 <? n)%nat then None
        else
          match skipn n r2 with
          | c :: rest =>
              if Byte.eqb c NL then Some ((name, firstn n r2), rest) else None
          | [] => None
          end
  end.

(** A whole record: fields until the input is used up.  Every field
    consumes at least ten bytes, so [length bs] rounds are enough. *)
Fixpoint parse_fields (fuel : nat) (bs : bytes) : option (list (bytes * bytes)) :=
  match bs with
  | [] => Some []
  | _ :: _ =>
      match fuel with
      | O => None
      | S fuel' =>
          match parse_field bs with
          | None => None
          | Some (f, rest) =>
              match parse_fields fuel' rest with
              | Some fs => Some (f :: fs)
              | None => None
              end
          end
      end
  end.

Definition parse_record (bs : bytes) : option (list (bytes * bytes)) :=
  parse_fields (length bs) bs.

End Wire.

(** ** [strconv] *)

Module Strconv.

(** ['0' + d] *)
Definition digit (d : Z) : byte := Conv.byte_of_Z (48 + d).

(** The digit loop of [formatBits] in base ten: the digits of [u] are
    put in front of [a], least significant first.  A [uint64] has at
    most twenty digits. *)
Fixpoint formatBits (fuel : nat) (u : Z) (a : bytes) : bytes :=
  match fuel with
  | O => a
  | S fuel' =>
      if u <? 10 then digit u :: a
      else formatBits fuel' (u / 10) (digit (u mod 10) :: a)
  end.

(** [strconv.AppendInt(dst, i, 10)] *)
Definition AppendInt (dst : bytes) (i : Z) : bytes :=
  dst ++ (if i <? 0 then x2d :: formatBits 20 (- i) []
          else formatBits 20 i []).

End Strconv.

(** ** [runtime]: call frames *)

(** [runtime.Frame], with the fields the package reads.  [Func] is a
    [*runtime.Func]: an address, or nil. *)
Record Frame := mkFrame {
  PC : Z;
  Func : option Z;
  Function : bytes;
  File : bytes;
  Line : Z
}.

(** The zero [Frame]. *)
Definition zeroFrame : Frame :=
  {| PC := 0; Func := None; Function := []; File := []; Line := 0 |}.

Module Runtime.

(** The stack of the calling goroutine at the moment [runtime.Callers]
    runs is given as the frames [runtime.CallersFrames] would
    symbolize, innermost first: index 0 is [runtime.Callers] itself,
    index 1 its caller, and so on.

    [Callers skip n stk]: what [runtime.Callers(skip, pc)] records
    into a slice [pc] of length [n], already symbolized.  Slots the
    stack is too shallow to fill stay zero and [CallersFrames] passes
    over them, so they yield no frame. *)
Definition Callers (skip n : nat) (stk : list Frame) : list Frame :=
  firstn n (skipn skip stk).

(** [frames.Next()]: the next frame (the zero [Frame] once all are
    used up), whether another one follows, and the iterator after the
    call. *)
Definition Next (frames : list Frame) : Frame * bool * list Frame :=
  match frames with
  | [] => (zeroFrame, false, [])
  | f :: rest => (f, match rest with [] => false | _ :: _ => true end, rest)
  end.

End Runtime.

(** ** [net.Conn] *)

(** A connection is known by the datagrams handed to its [Write], oldest
    first.  What the kernel and the daemon do with them is outside the
    package. *)
Record Conn := mkConn { written : list bytes }.

Definition Conn_Write (c : Conn) (msg : bytes) : Conn :=
  {| written := written c ++ [msg] |}.

(** ** Channels *)

(** A [chan []byte] made by [make(chan []byte, cap)]. *)
Record Chan := mkChan { cap : nat; buf : list bytes }.

Definition make_chan (n : nat) : Chan := {| cap := n; buf := [] |}.

(** ** What the package takes from outside

    [fmt.Fprintf] (as the bytes it writes for a format and its
    arguments), [lwlog.IsLoggingFunction], [net.Dial], the type of the
    values passed as [...interface{}] and the type of [error] values. *)
Class Env := {
  Arg : Type;
  Error : Type;
  Fprintf : bytes -> list Arg -> bytes;
  IsLoggingFunction : option Z -> bool;
  Dial : bytes -> bytes -> Conn + Error
}.

(** ** The [Journal] struct *)

Record Journal := mkJournal {
  Debug : bool;
  sock : option Conn;
  priDebug : bytes;
  priInfo : bytes;
  priError : bytes;
  extraVars : option Buffer.t;
  codePos : option (gmap Z bytes);
  writes : option Chan
}.

Definition set_Debug (b : bool) (j : Journal) : Journal :=
  mkJournal b (sock j) (priDebug j) (priInfo j) (priError j)
            (extraVars j) (codePos j) (writes j).

Definition set_sock (c : option Conn) (j : Journal) : Journal :=
  mkJournal (Debug j) c (priDebug j) (priInfo j) (priError j)
            (extraVars j) (codePos j) (writes j).

Definition set_extraVars (b : option Buffer.t) (j : Journal) : Journal :=
  mkJournal (Debug j) (sock j) (priDebug j) (priInfo j) (priError j)
            b (codePos j) (writes j).

Definition set_codePos (m : option (gmap Z bytes)) (j : Journal) : Journal :=
  mkJournal (Debug j) (sock j) (priDebug j) (priInfo j) (priError j)
            (extraVars j) m (writes j).

Definition set_writes (c : option Chan) (j : Journal) : Journal :=
  mkJournal (Debug j) (sock j) (priDebug j) (priInfo j) (priError j)
            (extraVars j) (codePos j) c.

(** ** The process

    Besides the [Journal] object the state of the process records how
    many [writer] goroutines have been started, and a log of the calls
    made to [runtime.Callers], [fmt.Fprintf] and [strconv.AppendInt],
    oldest first.  The log is not read by the package; it makes the
    work a call performs observable. *)

Inductive Call := CallCallers | CallFprintf | CallAppendInt.

#[global] Instance Call_eq_decision : EqDecision Call.
Proof. solve_decision. Defined.

Record Proc := mkProc {
  jnl : Journal;
  writers : nat;
  calls : list Call
}.

Definition upd (f : Journal -> Journal) (p : Proc) : Proc :=
  mkProc (f (jnl p)) (writers p) (calls p).

Definition logged (c : Call) (p : Proc) : Proc :=
  mkProc (jnl p) (writers p) (calls p ++ [c]).

(** How a call of one goroutine ends when run from a given state: it
    returns, it is suspended on a channel operation, or it panics. *)
Inductive outcome (A : Type) :=
| Done (a : A) (p : Proc)
| Blocked
| Panic.
Arguments Done {A} a p.
Arguments Blocked {A}.
Arguments Panic {A}.

Module GoM.

Definition M (A : Type) : Type := Proc -> outcome A.

Definition ret {A} (a : A) : M A := fun p => Done a p.

Definition bind {A B} (m : M A) (k : A -> M B) : M B :=
  fun p => match m p with
           | Done a p' => k a p'
           | Blocked => Blocked
           | Panic => Panic
           end.

Definition panic {A} : M A := fun _ => Panic.
Definition block {A} : M A := fun _ => Blocked.

(** Read the [Journal] object. *)
Definition getJ : M Journal := fun p => Done (jnl p) p.

(** Assign to the [Journal] object. *)
Definition updJ (f : Journal -> Journal) : M unit :=
  fun p => Done tt (upd f p).

(** Record a library call in the log. *)
Definition call (c : Call) : M unit :=
  fun p => Done tt (logged c p).

End GoM.

Declare Scope go_scope.
Delimit Scope go_scope with go.
Notation "'let!' x ':=' m 'in' k" := (GoM.bind m (fun x => k))
  (at level 10, x name, m at level 100, k at level 200) : go_scope.
Notation "m ';;' k" := (GoM.bind m (fun _ => k))
  (at level 100, k at level 200, right associativity) : go_scope.

(** ** The package's functions *)

Section Package.
Context `{Env}.
Import GoM.
Local Open Scope go_scope.

(** The loop of [getCodePos]
[[
    for moreFrames && lwlog.IsLoggingFunction(frame.Func) {
            frame, moreFrames = frames.Next()
    }
]]
    entered with the result of the first [Next]; [frames] is the
    iterator.  The iterator shrinks at every round. *)
Fixpoint skipLogging (frames : list Frame) (frame : Frame) (moreFrames : bool)
  {struct frames} : Frame :=
  if moreFrames && IsLoggingFunction (Func frame) then
    match frames with
    | [] => fst (fst (Runtime.Next []))
    | f :: rest =>
        let '(frame', more', frames') := Runtime.Next (f :: rest) in
        skipLogging rest frame' more'
    end
  else frame.

(** The first half of [getCodePos]: the frame whose PC keys the
    cache. *)
Definition callerFrame (stk : list Frame) : Frame :=
  let frames := Runtime.Callers 3 4 stk in
  let '(frame, moreFrames, frames) := Runtime.Next frames in
  skipLogging frames frame moreFrames.

(** The three fields [getCodePos] builds when the PC is not in the
    cache. *)
Definition encodeCodePos (frame : Frame) : bytes :=
  let buf := Buffer.NewBuffer in
  let buf := writeField buf (lit "CODE_FILE") (File frame) in
  let buf := writeField buf (lit "CODE_LINE")
               (Strconv.AppendInt [] (Line frame)) in
  let buf := writeField buf (lit "CODE_FUNC") (Function frame) in
  Buffer.Bytes buf.

(** [codePos, known := j.codePos[pc]]; reading a nil map finds
    nothing. *)
Definition mapaccess (m : option (gmap Z bytes)) (pc : Z) : option bytes :=
  match m with
  | Some m => m !! pc
  | None => None
  end.

(** [j.codePos[pc] = v]; assigning into a nil map panics. *)
Definition mapassign (pc : Z) (v : bytes) : M unit :=
  let! j := getJ in
  match codePos j with
  | Some m => updJ (set_codePos (Some (<[pc := v]> m)))
  | None => panic
  end.

(** [j.writes <- msg]: a send on a nil channel or on a full one
    suspends the goroutine. *)
Definition chansend (msg : bytes) : M unit :=
  let! j := getJ in
  match writes j with
  | None => block
  | Some c =>
      if (length (buf c) <? cap c)%nat
      then updJ (set_writes (Some (mkChan (cap c) (buf c ++ [msg]))))
      else block
  end.

(** [msg := <-j.writes], as [range] does it: a receive on a nil
    channel or on an empty one suspends the goroutine.  The channel is
    never closed. *)
Definition chanrecv : M bytes :=
  let! j := getJ in
  match writes j with
  | None => block
  | Some c =>
      match buf c with
      | [] => block
      | msg :: rest =>
          updJ (set_writes (Some (mkChan (cap c) rest))) ;;
          ret msg
      end
  end.

(** [getCodePos]; [stk] is the stack of the calling goroutine when
    [runtime.Callers] runs. *)
Definition getCodePos (stk : list Frame) : M bytes :=
  call CallCallers ;;
  let frame := callerFrame stk in
  let! j := getJ in
  match mapaccess (codePos j) (PC frame) with
  | Some codePos => ret codePos
  | None =>
      call CallAppendInt ;;
      let codePos := encodeCodePos frame in
      mapassign (PC frame) codePos ;;
      ret codePos
  end.

(** [entry].  [reqLen] is left out: it only sizes the buffer the
    record is assembled in.  Of its operands, [j.extraVars.Len()] is
    the first use of the buffer pointer. *)
Definition entry (stk : list Frame) (preamble : bytes)
           (Fmt : bytes) (args : list Arg) : M unit :=
  let! codePos := getCodePos stk in
  call CallFprintf ;;
  let msg := Buffer.Write Buffer.NewBuffer (Fprintf Fmt args) in
  let! j := getJ in
  match extraVars j with
  | None => panic
  | Some extraVars =>
      let buf := Buffer.NewBuffer in
      let buf := Buffer.Write buf preamble in
      let buf := Buffer.Write buf codePos in
      let buf := Buffer.Write buf (Buffer.Bytes extraVars) in
      let buf := writeField buf (lit "MESSAGE") (Buffer.Bytes msg) in
      chansend (Buffer.Bytes buf)
  end.

(** [AddVariable] *)
Definition AddVariable (name value : bytes) : M unit :=
  let! j := getJ in
  match extraVars j with
  | None => panic
  | Some b => updJ (set_extraVars (Some (writeField b name value)))
  end.

(** [Debugf] *)
Definition Debugf (stk : list Frame) (fmt : bytes) (args : list Arg) : M unit :=
  let! j := getJ in
  if negb (Debug j) then ret tt
  else entry stk (priDebug j) fmt args.

(** [Infof] *)
Definition Infof (stk : list Frame) (fmt : bytes) (args : list Arg) : M unit :=
  let! j := getJ in
  entry stk (priInfo j) fmt args.

(** [Errorf] *)
Definition Errorf (stk : list Frame) (fmt : bytes) (args : list Arg) : M unit :=
  let! j := getJ in
  entry stk (priError j) fmt args.

(** One round of the loop of [writer]: receive a message, hand it to
    the socket, ignore what [Write] returns. *)
Definition writer : M unit :=
  let! msg := chanrecv in
  let! j := getJ in
  match sock j with
  | None => panic
  | Some c => updJ (set_sock (Some (Conn_Write c msg)))
  end.

(** [New]: the two results; on success the first is the state of the
    process, holding the new [Journal] and the one [writer] goroutine
    that [go j.writer()] starts. *)
Definition New : option Proc * option Error :=
  match Dial (lit "unixgram") (lit "/run/systemd/journal/socket") with
  | inr err => (None, Some err)
  | inl sock =>
      let j :=
        {| Debug := false;
           sock := Some sock;
           priDebug := buildField (lit "PRIORITY") (lit "7");
           priInfo := buildField (lit "PRIORITY") (lit "6");
           priError := buildField (lit "PRIORITY") (lit "3");
           extraVars := Some Buffer.NewBuffer;
           codePos := Some ∅;
           writes := Some (make_chan 100) |} in
      (Some {| jnl := j; writers := 1; calls := [] |}, None)
  end.

(** ** Runs of the process

    What client code can do with a [Journal]: assign the exported
    field [Debug] and call the four methods.  A call runs from its
    first statement to its return in one step; a call that would be
    suspended is not a step.  The [writer] goroutine takes one round
    per step. *)

Inductive Op :=
| OpSetDebug (b : bool)
| OpAddVariable (name value : bytes)
| OpDebugf (stk : list Frame) (fmt : bytes) (args : list Arg)
| OpInfof (stk : list Frame) (fmt : bytes) (args : list Arg)
| OpErrorf (stk : list Frame) (fmt : bytes) (args : list Arg).

Definition exec (op : Op) : M unit :=
  match op with
  | OpSetDebug b => updJ (set_Debug b)
  | OpAddVariable name value => AddVariable name value
  | OpDebugf stk fmt args => Debugf stk fmt args
  | OpInfof stk fmt args => Infof stk fmt args
  | OpErrorf stk fmt args => Errorf stk fmt args
  end.

(** The stack an operation is called with, if it takes one. *)
Definition op_stack (op : Op) : option (list Frame) :=
  match op with
  | OpDebugf stk _ _ | OpInfof stk _ _ | OpErrorf stk _ _ => Some stk
  | OpSetDebug _ | OpAddVariable _ _ => None
  end.

(** [symbolized sym stk]: the frame the walk stops at is the one the
    program's symbol table [sym] has for its PC. *)
Definition symbolized (sym : Z -> Frame) (stk : list Frame) : Prop :=
  sym (PC (callerFrame stk)) = callerFrame stk.

(** [step ok]: one step of the process, the logging calls being made
    with stacks that satisfy [ok]: [fun _ => True] for any stack at
    all, [symbolized sym] for the stacks of a program whose symbol
    table is [sym]. *)
Inductive step (ok : list Frame -> Prop) : Proc -> Proc -> Prop :=
| step_op op p p' :
    (forall stk, op_stack op = Some stk -> ok stk) ->
    exec op p = Done tt p' ->
    step ok p p'
| step_writer p p' :
    (0 < writers p)%nat ->
    writer p = Done tt p' ->
    step ok p p'.

(** The states a process can be in after a successful [New]. *)
Definition reachable (ok : list Frame -> Prop) (p : Proc) : Prop :=
  exists p0, fst New = Some p0 /\ rtc (step ok) p0 p.

End Package.

(** ** Observations and invariants *)

(** The records waiting in the channel, oldest first. *)
Definition queued (p : Proc) : list bytes :=
  match writes (jnl p) with
  | Some c => buf c
  | None => []
  end.

(** The contents of the extra-variables buffer. *)
Definition extra (p : Proc) : bytes :=
  match extraVars (jnl p) with
  | Some b => Buffer.Bytes b
  | None => []
  end.

(** The datagrams handed to the socket, oldest first. *)
Definition sent (p : Proc) : list bytes :=
  match sock (jnl p) with
  | Some c => written c
  | None => []
  end.

(** The encoding of a sequence of fields. *)
Definition encode_fields (fs : list (bytes * bytes)) : bytes :=
  concat (map (fun f => buildField (fst f) (snd f)) fs).

(** A field that the reader gets back: no newline in the name, a
    length that fits. *)
Definition readable (f : bytes * bytes) : Prop :=
  ~ In NL (fst f) /\ Z.of_nat (length (snd f)) < 2 ^ 64.

(** How often [runtime.Callers] has been called. *)
Definition stackWalks (p : Proc) : nat :=
  length (filter (fun c => c = CallCallers) (calls p)).

Section Invariants.
Context `{Env}.

(** What [New] sets up and no step undoes. *)
Record constructed (p : Proc) : Prop := mkConstructed {
  c_sock : is_Some (sock (jnl p));
  c_priDebug : priDebug (jnl p) = buildField (lit "PRIORITY") (lit "7");
  c_priInfo : priInfo (jnl p) = buildField (lit "PRIORITY") (lit "6");
  c_priError : priError (jnl p) = buildField (lit "PRIORITY") (lit "3");
  c_extraVars : is_Some (extraVars (jnl p));
  c_codePos : is_Some (codePos (jnl p));
  c_writes : exists c, writes (jnl p) = Some c /\ cap c = 100%nat
                       /\ (length (buf c) <= 100)%nat;
  c_writers : writers p = 1%nat
}.

(** The form of a constructed state: the six parts that vary. *)
Definition shaped (d : bool) (s : Conn) (ev : bytes) (m : gmap Z bytes)
           (q : list bytes) (cs : list Call) : Proc :=
  mkProc (mkJournal d (Some s)
            (buildField (lit "PRIORITY") (lit "7"))
            (buildField (lit "PRIORITY") (lit "6"))
            (buildField (lit "PRIORITY") (lit "3"))
            (Some ev) (Some m) (Some (mkChan 100 q))) 1 cs.

(** Every cache entry is the encoding of the frame the symbol table has
    for its key. *)
Definition coherent (sym : Z -> Frame) (p : Proc) : Prop :=
  forall pc b, mapaccess (codePos (jnl p)) pc = Some b ->
               b = encodeCodePos (sym pc).

(** What one step can change: the state stays constructed, cache
    entries stay as they are, and the extra-variables buffer and the
    sequence of records sent or waiting grow at the end only. *)
Definition extends (p p' : Proc) : Prop :=
  constructed p' /\
  (forall pc b, mapaccess (codePos (jnl p)) pc = Some b ->
                mapaccess (codePos (jnl p')) pc = Some b) /\
  (exists suf, extra p' = extra p ++ suf) /\
  (exists new, sent p' ++ queued p' = (sent p ++ queued p) ++ new).

(** Run a list of operations one after the other, as long as each one
    returns. *)
Fixpoint run_ops (ops : list Op) (p : Proc) : option Proc :=
  match ops with
  | [] => Some p
  | op :: ops' =>
      match exec op p with
      | Done _ p' => run_ops ops' p'
      | Blocked | Panic => None
      end
  end.

(** The second sentence of the resolver's contract as the
    specification has it: a second resolution of the same call site
    returns the same bytes and leaves the number of stack walks as it
    was. *)
Definition second_resolution_walks_no_stack : Prop :=
  forall (sym : Z -> Frame) (p p1 p2 : Proc) (stk : list Frame) (b1 b2 : bytes),
    reachable (symbolized sym) p ->
    symbolized sym stk ->
    getCodePos stk p = Done b1 p1 ->
    getCodePos stk p1 = Done b2 p2 ->
    b2 = b1 /\ stackWalks p2 = stackWalks p1.

End Invariants.

(** ** A small program to run the package on

    The demo of [cmd/demo]: [main] calls [runTest], which logs with
    [Infof].  The formatter knows the verb [%d] only, which is all the
    examples need. *)

Module Demo.

Fixpoint sprintf (fmt : bytes) (args : list Z) {struct fmt} : bytes :=
  match fmt with
  | [] => []
  | c :: rest =>
      if Byte.eqb c x25 then
        match rest with
        | d :: rest' =>
            if Byte.eqb d x64 then
              match args with
              | a :: args' => Strconv.AppendInt [] a ++ sprintf rest' args'
              | [] => lit "%!d(MISSING)" ++ sprintf rest' []
              end
            else c :: d :: sprintf rest' args
        | [] => lit "%!(NOVERB)"
        end
      else c :: sprintf rest args
  end.

(** Addresses 1 to 99 hold the logging functions. *)
Definition isLogging (f : option Z) : bool :=
  match f with
  | Some a => (0 <? a) && (a <? 100)
  | None => false
  end.

Definition dial (network address : bytes) : Conn + bytes :=
  if decide (network = lit "unixgram") then inl (mkConn [])
  else inr (lit "dial: unknown network").

#[export] Instance env : Env :=
  {| Arg := Z; Error := bytes; Fprintf := sprintf;
     IsLoggingFunction := isLogging; Dial := dial |}.

(** An environment in which the daemon cannot be reached. *)
Definition env_down : Env :=
  {| Arg := Z; Error := bytes; Fprintf := sprintf;
     IsLoggingFunction := isLogging;
     Dial := fun _ _ => inr (lit "connect: no such file or directory") |}.

Definition fCallers : Frame :=
  mkFrame 4200 (Some 900) (lit "runtime.Callers") (lit "extern.go") 325.
Definition fGetCodePos : Frame :=
  mkFrame 5134 (Some 130) (lit "lwjournal.(*Journal).getCodePos")
          (lit "journal.go") 134.
Definition fEntry : Frame :=
  mkFrame 5105 (Some 104) (lit "lwjournal.(*Journal).entry")
          (lit "journal.go") 105.
Definition fInfof : Frame :=
  mkFrame 5096 (Some 95) (lit "lwjournal.(*Journal).Infof")
          (lit "journal.go") 96.
Definition fDebugf : Frame :=
  mkFrame 5091 (Some 87) (lit "lwjournal.(*Journal).Debugf")
          (lit "journal.go") 91.
Definition fRunTest : Frame :=
  mkFrame 7031 (Some 725) (lit "main.runTest")
          (lit "cmd/demo/journal.go") 31.
Definition fMain : Frame :=
  mkFrame 7021 (Some 712) (lit "main.main")
          (lit "cmd/demo/journal.go") 21.
Definition fRuntimeMain : Frame :=
  mkFrame 3250 (Some 800) (lit "runtime.main") (lit "proc.go") 250.
Definition fGoexit : Frame :=
  mkFrame 3900 (Some 801) (lit "runtime.goexit") (lit "asm_amd64.s") 1650.

(** The stack when [runTest] logs through [Infof]. *)
Definition stack : list Frame :=
  [fCallers; fGetCodePos; fEntry; fInfof; fRunTest; fMain;
   fRuntimeMain; fGoexit].

(** The same call site reached through [Debugf]. *)
Definition stack_debug : list Frame :=
  [fCallers; fGetCodePos; fEntry; fDebugf; fRunTest; fMain;
   fRuntimeMain; fGoexit].

(** A logger wrapped in three further logging functions. *)
Definition fWrap (n : Z) : Frame :=
  mkFrame (6000 + n) (Some (10 + n)) (lit "lwlog.wrap") (lit "wrap.go") n.


(** The symbol table of the program: the frames above, by PC. *)
Definition sym (pc : Z) : Frame :=
  match List.find (fun f => PC f =? pc)
          (stack ++ [fDebugf; fWrap 1; fWrap 2; fWrap 3]) with
  | Some f => f
  | None => zeroFrame
  end.

(** The process right after [New]. *)
Definition start : Proc := shaped false (mkConn []) [] ∅ [] [].

(** One hundred calls of [Infof] with no round of the writer in
    between: the channel is full. *)
Definition hundred : list Op :=
  replicate 100 (OpInfof stack (lit "log entry #%d") [7%Z]).

Definition full : Proc :=
  match run_ops hundred start with
  | Some p => p
  | None => start
  end.

(** A goroutine started as [go lg.Infof(...)]: nothing above [Infof]
    but [runtime.goexit]. *)
Definition stack_shallow : list Frame :=
  [fCallers; fGetCodePos; fEntry; fInfof; fGoexit].

End Demo.

(** ** Capacities, whole buffers, decimal numbers, runs of a program *)

(** The capacity [buildField] makes its buffer with:
    [len(name)+len(message)+10]. *)
Definition buildField_cap (name message : bytes) : Z :=
  Z.of_nat (length name) + Z.of_nat (length message) + 10.

(** [reqLen], the capacity [entry] makes the buffer of a record with. *)
Definition reqLen (preamble codePos : bytes) (extraVars msg : Buffer.t) : Z :=
  Z.of_nat (length preamble) + Z.of_nat (length codePos)
  + Buffer.Len extraVars + Buffer.Len msg + 20.

(** Fields written into a buffer one after the other, as [getCodePos]
    writes its three and repeated calls of [AddVariable] write
    theirs. *)
Definition writeFields (b : Buffer.t) (fs : list (bytes * bytes)) : Buffer.t :=
  fold_left (fun b f => writeField b (fst f) (snd f)) fs b.

(** Reading a decimal number back: digits, with a minus sign in front
    for a negative number.  Like [Wire], this is a yardstick for the
    bytes [strconv.AppendInt] produces, not a translation of source. *)
Module Decimal.

Definition digit_value (b : byte) : option Z :=
  let v := Conv.Z_of_byte b - 48 in
  if (0 <=? v) && (v <? 10) then Some v else None.

Fixpoint read_digits (acc : Z) (bs : bytes) : option Z :=
  match bs with
  | [] => Some acc
  | b :: rest =>
      match digit_value b with
      | Some d => read_digits (10 * acc + d) rest
      | None => None
      end
  end.

Definition read_int (bs : bytes) : option Z :=
  match bs with
  | [] => None
  | b :: rest =>
      if Byte.eqb b x2d then
        match rest with
        | [] => None
        | _ :: _ => option_map Z.opp (read_digits 0 rest)
        end
      else read_digits 0 bs
  end.

End Decimal.

(** A [Journal] that [New] did not make: the composite literal
    [Journal{Debug: d}], every other field at its zero value. *)
Definition literalJournal (d : bool) : Journal :=
  mkJournal d None [] [] [] None None None.

(** [n] rounds of the loop of [writer]. *)
Fixpoint writer_rounds (n : nat) (p : Proc) : outcome unit :=
  match n with
  | O => Done tt p
  | S n' =>
      match writer p with
      | Done _ p' => writer_rounds n' p'
      | Blocked => Blocked
      | Panic => Panic
      end
  end.

(** How often a library call occurs in the log. *)
Definition countCall (c : Call) (p : Proc) : nat :=
  length (filter (fun x => x = c) (calls p)).

Section Programs.
Context `{Env}.

(** The number of records the operations assemble when run in this
    order, [d] being the value of [Debug] at the start: one for each
    [Infof] and [Errorf], one for each [Debugf] made while [Debug] is
    set. *)
Fixpoint assembling (d : bool) (ops : list Op) : nat :=
  match ops with
  | [] => O
  | OpSetDebug b :: ops' => assembling b ops'
  | OpAddVariable _ _ :: ops' => assembling d ops'
  | OpDebugf _ _ _ :: ops' => ((if d then 1 else 0) + assembling d ops')%nat
  | OpInfof _ _ _ :: ops' => S (assembling d ops')
  | OpErrorf _ _ _ :: ops' => S (assembling d ops')
  end.

(** The variables the operations add, in the order they add them. *)
Fixpoint added (ops : list Op) : list (bytes * bytes) :=
  match ops with
  | [] => []
  | OpAddVariable name value :: ops' => (name, value) :: added ops'
  | _ :: ops' => added ops'
  end.

(** [run ops p p']: one goroutine makes the calls [ops] in this order,
    each returning, while the writer takes rounds at any point in
    between; the process goes from [p] to [p']. *)
Inductive run : list Op -> Proc -> Proc -> Prop :=
| run_done p : run [] p p
| run_call op ops p p1 p2 :
    exec op p = Done tt p1 -> run ops p1 p2 -> run (op :: ops) p p2
| run_writer ops p p1 p2 :
    writer p = Done tt p1 -> run ops p1 p2 -> run ops p p2.

(** [runTest] of [cmd/demo]: its hundred calls of [Infof].  [box] turns
    the loop counter into the [interface{}] value passed on, [stk] is
    the stack at these calls.  The timing printed to standard error is
    left out. *)
Definition runTest (box : Z -> Arg) (stk : list Frame) : list Op :=
  map (fun i => OpInfof stk (lit "log entry #%d") [box (Z.of_nat i)])
      (seq 0 100).

(** [main] of [cmd/demo] after a successful [New]: the calls it makes
    on the journal.  [stk_main] is the stack at its own call of
    [Infof], [stk_run] the stack at the calls of [runTest].  The final
    sleep is left out, as is the exit taken when [New] fails. *)
Definition main (box : Z -> Arg) (stk_main stk_run : list Frame) : list Op :=
  [OpAddVariable (lit "FOO") (lit "bar");
   OpInfof stk_main (lit "starting") []]
  ++ runTest box stk_run.

End Programs.

(** ** Calls and the writer, one statement at a time

    [exec] runs a call from its first statement to its return, and
    [writer] a whole round of its loop.  The goroutines are not atomic
    like that.  [entry] assembles its record (l.105-118) and then sends
    it (l.119); the writer receives a record (l.123) and then hands it
    to the socket (l.126).  In between, the record is in a local
    variable of the goroutine: [buf] of [entry], [msg] of [writer].
    [Sys] adds these two variables to the process, for one goroutine
    that logs and the writer. *)

Record Sys := mkSys {
  proc : Proc;
  (** the record [entry] has assembled and not sent yet *)
  assembled : option bytes;
  (** the record [writer] has received and not written yet *)
  received : option bytes
}.

(** The records a local variable holds: one or none. *)
Definition held (o : option bytes) : list bytes :=
  match o with
  | Some r => [r]
  | None => []
  end.

(** The records there are, oldest first: handed to the socket, in the
    hands of the writer, waiting in the channel, assembled and not sent
    yet. *)
Definition records (s : Sys) : list bytes :=
  sent (proc s) ++ held (received s) ++ queued (proc s) ++ held (assembled s).

Section Statements.
Context `{Env}.
Import GoM.
Local Open Scope go_scope.

(** [entry] up to its send: the record it assembles. *)
Definition assemble (stk : list Frame) (preamble : bytes)
           (Fmt : bytes) (args : list Arg) : M bytes :=
  let! codePos := getCodePos stk in
  call CallFprintf ;;
  let msg := Buffer.Write Buffer.NewBuffer (Fprintf Fmt args) in
  let! j := getJ in
  match extraVars j with
  | None => panic
  | Some extraVars =>
      let buf := Buffer.NewBuffer in
      let buf := Buffer.Write buf preamble in
      let buf := Buffer.Write buf codePos in
      let buf := Buffer.Write buf (Buffer.Bytes extraVars) in
      let buf := writeField buf (lit "MESSAGE") (Buffer.Bytes msg) in
      ret (Buffer.Bytes buf)
  end.

(** A call up to its send: the record to send, or none when the call
    returns without one. *)
Definition prepare (op : Op) : M (option bytes) :=
  match op with
  | OpSetDebug b => updJ (set_Debug b) ;; ret None
  | OpAddVariable name value => AddVariable name value ;; ret None
  | OpDebugf stk fmt args =>
      let! j := getJ in
      if negb (Debug j) then ret None
      else let! r := assemble stk (priDebug j) fmt args in ret (Some r)
  | OpInfof stk fmt args =>
      let! j := getJ in
      let! r := assemble stk (priInfo j) fmt args in ret (Some r)
  | OpErrorf stk fmt args =>
      let! j := getJ in
      let! r := assemble stk (priError j) fmt args in ret (Some r)
  end.

(** [tick]: one step of the two goroutines.  The first component is
    what the logging goroutine has still to call.  A call without a
    record returns in one step.  A leveled call takes two: it
    assembles its record, which touches the cache and the log of
    library calls and neither the channel nor the socket; then it
    sends, which needs room in the channel, and returns.  The writer
    receives in one step and writes in the next. *)
Inductive tick : list Op * Sys -> list Op * Sys -> Prop :=
| tick_call op ops p p' h :
    prepare op p = Done None p' ->
    tick (op :: ops, mkSys p None h) (ops, mkSys p' None h)
| tick_assemble op ops p p' r h :
    prepare op p = Done (Some r) p' ->
    tick (op :: ops, mkSys p None h) (ops, mkSys p' (Some r) h)
| tick_send ops p p' r h :
    chansend r p = Done tt p' ->
    tick (ops, mkSys p (Some r) h) (ops, mkSys p' None h)
| tick_receive ops p p' a msg :
    (0 < writers p)%nat ->
    chanrecv p = Done msg p' ->
    tick (ops, mkSys p a None) (ops, mkSys p' a (Some msg))
| tick_write ops p a msg c :
    sock (jnl p) = Some c ->
    tick (ops, mkSys p a (Some msg))
         (ops, mkSys (upd (set_sock (Some (Conn_Write c msg))) p) a None).

End Statements.

(** States of the demo used in the examples below. *)
Module DemoStates.

(** A variable is added, then [runTest] logs once. *)
Definition once_ops : list (@Op Demo.env) :=
  [ @OpAddVariable Demo.env (lit "SESSION") (lit "a1");
    @OpInfof Demo.env Demo.stack (lit "x=%d") [1] ].

Definition once : Proc :=
  match @run_ops Demo.env once_ops Demo.start with
  | Some p => p
  | None => Demo.start
  end.

End DemoStates.

(** * Properties *)

(** ** Properties of the encoder *)

Section Encoder.
Import Conv LittleEndian Wire.

Lemma Z_of_byte_of_Z (v : Z) : Z_of_byte (byte_of_Z v) = v mod 256.
Proof.
  unfold Z_of_byte, byte_of_Z.
  assert (Hr : 0 <= Z.land v 255 < 256).
  { change 255 with (Z.ones 8). rewrite Z.land_ones by lia.
    apply Z.mod_pos_bound. lia. }
  destruct (Byte.of_N (Z.to_N (Z.land v 255))) as [b|] eqn:E.
  - apply Byte.to_of_N in E. rewrite E, Z2N.id by lia.
    change 255 with (Z.ones 8). rewrite Z.land_ones by lia. reflexivity.
  - apply Byte.of_N_None_iff in E. lia.
Qed.

Lemma length_PutUint64 (v : Z) : length (PutUint64 v) = 8%nat.
Proof. reflexivity. Qed.

Lemma le_value_PutUint64 (v : Z) :
  0 <= v < 2 ^ 64 -> le_value (PutUint64 v) = v.
Proof.
  intros Hv. unfold PutUint64, le_value.
  rewrite !Z_of_byte_of_Z, !Z.shiftr_div_pow2 by lia.
  change (2 ^ 8) with 256. change (2 ^ 16) with (256 * 256).
  change (2 ^ 24) with (256 * 256 * 256).
  change (2 ^ 32) with (256 * 256 * 256 * 256).
  change (2 ^ 40) with (256 * 256 * 256 * 256 * 256).
  change (2 ^ 48) with (256 * 256 * 256 * 256 * 256 * 256).
  change (2 ^ 56) with (256 * 256 * 256 * 256 * 256 * 256 * 256).
  change (2 ^ 64) with (256 * 256 * 256 * 256 * 256 * 256 * 256 * 256) in Hv.
  rewrite <- !Z.div_div by lia.
  set (q1 := v / 256). set (q2 := q1 / 256). set (q3 := q2 / 256).
  set (q4 := q3 / 256). set (q5 := q4 / 256). set (q6 := q5 / 256).
  set (q7 := q6 / 256).
  pose proof (Z.div_mod v 256 ltac:(lia)).
  pose proof (Z.div_mod q1 256 ltac:(lia)).
  pose proof (Z.div_mod q2 256 ltac:(lia)).
  pose proof (Z.div_mod q3 256 ltac:(lia)).
  pose proof (Z.div_mod q4 256 ltac:(lia)).
  pose proof (Z.div_mod q5 256 ltac:(lia)).
  pose proof (Z.div_mod q6 256 ltac:(lia)).
  assert (0 <= q7 < 256).
  { subst q7 q6 q5 q4 q3 q2 q1.
    split.
    - repeat apply Z.div_pos; lia.
    - repeat (apply Z.div_lt_upper_bound; [lia|]). lia. }
  rewrite (Z.mod_small q7 256) by lia.
  subst q7 q6 q5 q4 q3 q2 q1.
  lia.
Qed.


Lemma uint64_len (value : bytes) :
  Z.of_nat (length value) < 2 ^ 64 ->
  uint64 (Z.of_nat (length value)) = Z.of_nat (length value).
Proof. intros Hlen. unfold uint64. apply Z.mod_small. lia. Qed.

Lemma writeField_app (b name value : bytes) :
  writeField b name value = b ++ buildField name value.
Proof.
  unfold buildField, writeField, Buffer.WriteString, Buffer.WriteByte,
    Buffer.Write, Buffer.Bytes, Buffer.NewBuffer.
  cbn [app]. rewrite <- !app_assoc. reflexivity.
Qed.

Lemma buildField_unfold (name value : bytes) :
  buildField name value
  = name ++ [NL] ++ PutUint64 (uint64 (Z.of_nat (length value)))
      ++ value ++ [NL].
Proof.
  unfold buildField, writeField, Buffer.WriteString, Buffer.WriteByte,
    Buffer.Write, Buffer.Bytes, Buffer.NewBuffer.
  cbn [app]. rewrite <- !app_assoc. reflexivity.
Qed.

(** C1. [writeField] appends to the buffer, and [buildField] returns,
    exactly: the name, one newline, eight bytes that are the length
    of the value in little-endian order, the value itself unchanged,
    one newline.  (A Go slice has fewer than [2^63] elements, so the
    bound on the length always holds of the source.) *)
Theorem writeField_layout (b name value : bytes) :
  Z.of_nat (length value) < 2 ^ 64 ->
  exists sz : bytes,
    length sz = 8%nat /\
    le_value sz = Z.of_nat (length value) /\
    writeField b name value = b ++ name ++ [NL] ++ sz ++ value ++ [NL] /\
    buildField name value = name ++ [NL] ++ sz ++ value ++ [NL].
Proof.
  intros Hlen.
  exists (PutUint64 (uint64 (Z.of_nat (length value)))).
  split; [apply length_PutUint64|].
  split.
  { rewrite uint64_len by exact Hlen. apply le_value_PutUint64. lia. }
  split.
  - rewrite writeField_app, buildField_unfold. reflexivity.
  - apply buildField_unfold.
Qed.

Lemma writeField_layout_witness :
  exists sz : bytes,
    length sz = 8%nat /\
    le_value sz = 3 /\
    writeField (lit "A") (lit "FOO") (lit "bar")
    = lit "A" ++ lit "FOO" ++ [NL] ++ sz ++ lit "bar" ++ [NL] /\
    buildField (lit "FOO") (lit "bar")
    = lit "FOO" ++ [NL] ++ sz ++ lit "bar" ++ [NL].
Proof.
  apply (writeField_layout (lit "A") (lit "FOO") (lit "bar")).
  vm_compute. reflexivity.
Defined.

Lemma read_name_app (name rest : bytes) :
  ~ In NL name -> read_name (name ++ NL :: rest) = Some (name, rest).
Proof.
  induction name as [|c name IH]; intros Hnl; cbn [app read_name].
  - reflexivity.
  - destruct (Byte.eqb c NL) eqn:E.
    + apply Byte.byte_dec_bl in E. subst c. exfalso. apply Hnl. now left.
    + rewrite IH; [reflexivity|]. intros Hin. apply Hnl. now right.
Qed.

Lemma buildField_split (name value rest : bytes) :
  buildField name value ++ rest
  = name ++ NL :: (PutUint64 (uint64 (Z.of_nat (length value)))
                     ++ value ++ NL :: rest).
Proof.
  rewrite buildField_unfold. cbn [app]. rewrite <- !app_assoc. cbn [app].
  rewrite <- !app_assoc. reflexivity.
Qed.

Lemma parse_field_buildField (name value rest : bytes) :
  ~ In NL name ->
  Z.of_nat (length value) < 2 ^ 64 ->
  parse_field (buildField name value ++ rest) = Some ((name, value), rest).
Proof.
  intros Hnl Hlen.
  rewrite buildField_split. unfold parse_field.
  set (sz := PutUint64 (uint64 (Z.of_nat (length value)))).
  assert (Hsz : length sz = 8%nat) by apply length_PutUint64.
  rewrite read_name_app by exact Hnl.
  destruct (Nat.ltb_spec (length (sz ++ value ++ NL :: rest)) 8) as [Hlt|_].
  { rewrite length_app in Hlt. lia. }
  rewrite (take_app_length' sz) by (symmetry; exact Hsz).
  rewrite (drop_app_length' sz) by (symmetry; exact Hsz).
  subst sz. rewrite le_value_PutUint64
    by (rewrite uint64_len by exact Hlen; lia).
  rewrite uint64_len by exact Hlen. rewrite Nat2Z.id.
  destruct (Nat.ltb_spec (length (value ++ NL :: rest)) (length value))
    as [Hlt|_].
  { rewrite length_app in Hlt. lia. }
  rewrite drop_app_length, take_app_length.
  unfold NL. reflexivity.
Qed.

(** C2. Encoding a field and reading it back gives back the value,
    whatever bytes it holds and whatever follows the field: reading up
    to the first newline yields the name; the next eight bytes,
    little-endian, give the length of the value; that many bytes after
    them are the value.  The reader as a whole returns the name, the
    value and what follows. *)
Theorem encode_parse_roundtrip (name value rest : bytes) :
  ~ In NL name ->
  Z.of_nat (length value) < 2 ^ 64 ->
  exists r1,
    read_name (buildField name value ++ rest) = Some (name, r1) /\
    le_value (firstn 8 r1) = Z.of_nat (length value) /\
    firstn (length value) (skipn 8 r1) = value /\
    parse_field (buildField name value ++ rest) = Some ((name, value), rest).
Proof.
  intros Hnl Hlen.
  exists (PutUint64 (uint64 (Z.of_nat (length value))) ++ value ++ NL :: rest).
  split; [|split; [|split]].
  - rewrite buildField_split. now apply read_name_app.
  - rewrite (take_app_length' (PutUint64 _)) by reflexivity.
    rewrite uint64_len by exact Hlen. apply le_value_PutUint64. lia.
  - rewrite (drop_app_length' (PutUint64 _)) by reflexivity.
    apply take_app_length.
  - now apply parse_field_buildField.
Qed.

(** A value with an embedded newline, a NUL and bytes that are not
    UTF-8. *)
Lemma encode_parse_roundtrip_witness :
  parse_field (buildField (lit "MESSAGE") [x61; x0a; x00; xff; xfe; x0a; x62]
                 ++ lit "NEXT")
  = Some ((lit "MESSAGE", [x61; x0a; x00; xff; xfe; x0a; x62]), lit "NEXT").
Proof.
  destruct (encode_parse_roundtrip (lit "MESSAGE")
              [x61; x0a; x00; xff; xfe; x0a; x62] (lit "NEXT"))
    as (r1 & _ & _ & _ & Hparse).
  - vm_compute. intuition discriminate.
  - vm_compute. reflexivity.
  - exact Hparse.
Defined.

Lemma buildField_length (name value : bytes) :
  (length (buildField name value) = length name + length value + 10)%nat.
Proof.
  rewrite buildField_unfold, !length_app, length_PutUint64. cbn [length]. lia.
Qed.

Lemma parse_fields_step (fuel : nat) (bs : bytes) :
  bs <> [] ->
  parse_fields (S fuel) bs =
    match parse_field bs with
    | None => None
    | Some (f, rest) =>
        match parse_fields fuel rest with
        | Some fs => Some (f :: fs)
        | None => None
        end
    end.
Proof. destruct bs; [congruence|reflexivity]. Qed.

Lemma parse_fields_encode (fs : list (bytes * bytes)) (fuel : nat) :
  Forall readable fs ->
  (length fs <= fuel)%nat ->
  parse_fields fuel (encode_fields fs) = Some fs.
Proof.
  revert fuel. induction fs as [|[name value] fs IH]; intros fuel Hok Hfuel.
  - destruct fuel; reflexivity.
  - inversion Hok as [|? ? [Hnl Hlen] Hrest]; subst. cbn [fst snd] in *.
    destruct fuel as [|fuel]; [cbn in Hfuel; lia|].
    unfold encode_fields. cbn [map concat fst snd].
    fold (encode_fields fs).
    rewrite parse_fields_step.
    + rewrite parse_field_buildField by assumption.
      rewrite IH; [reflexivity|assumption|cbn in Hfuel; lia].
    + intros E. apply (f_equal length) in E.
      rewrite length_app, buildField_length in E. cbn in E. lia.
Qed.

Lemma encode_fields_length (fs : list (bytes * bytes)) :
  (length fs <= length (encode_fields fs))%nat.
Proof.
  induction fs as [|[name value] fs IH]; [cbn; lia|].
  unfold encode_fields in *. cbn [map concat fst snd length].
  rewrite length_app, buildField_length. lia.
Qed.

Lemma parse_record_encode (fs : list (bytes * bytes)) :
  Forall readable fs -> parse_record (encode_fields fs) = Some fs.
Proof.
  intros Hok. unfold parse_record. apply parse_fields_encode; [assumption|].
  apply encode_fields_length.
Qed.

Lemma formatBits_length (fuel : nat) (u : Z) (a : bytes) :
  (length (Strconv.formatBits fuel u a) <= fuel + length a)%nat.
Proof.
  revert u a. induction fuel as [|fuel IH]; intros u a; cbn [Strconv.formatBits].
  - lia.
  - destruct (u <? 10); [cbn [length]; lia|].
    etransitivity; [apply IH|]. cbn [length]. lia.
Qed.

Lemma AppendInt_length (i : Z) :
  Z.of_nat (length (Strconv.AppendInt [] i)) < 2 ^ 64.
Proof.
  unfold Strconv.AppendInt. cbn [app].
  assert (Hb : (length (if Z.ltb i 0
                        then x2d :: Strconv.formatBits 20 (Z.opp i) []
                        else Strconv.formatBits 20 i []) <= 21)%nat).
  { destruct (Z.ltb i 0); cbn [length].
    - pose proof (formatBits_length 20 (- i) []) as Hf. cbn [length] in Hf. lia.
    - pose proof (formatBits_length 20 i []) as Hf. cbn [length] in Hf. lia. }
  assert (21 < 2 ^ 64) by reflexivity. lia.
Qed.

End Encoder.

(** ** The operations, run from a constructed state *)

Section Runs.
Context `{Env}.
Import GoM.

(** Unfold the monad's plumbing and project the states it builds. *)
Ltac run_go :=
  repeat (progress
            (try unfold bind, ret, getJ, updJ, call, panic, block;
             cbn [jnl writers calls logged upd])).

Lemma getCodePos_run (stk : list Frame) (p : Proc) (m : gmap Z bytes) :
  codePos (jnl p) = Some m ->
  getCodePos stk p =
    match m !! PC (callerFrame stk) with
    | Some b => Done b (logged CallCallers p)
    | None =>
        let cp := encodeCodePos (callerFrame stk) in
        Done cp (upd (set_codePos (Some (<[PC (callerFrame stk) := cp]> m)))
                     (logged CallAppendInt (logged CallCallers p)))
    end.
Proof.
  intros Hm.
  unfold getCodePos, mapassign, mapaccess. run_go. rewrite Hm.
  destruct (m !! PC (callerFrame stk)) as [b|]; [reflexivity|].
  run_go. rewrite Hm. reflexivity.
Qed.

Lemma chansend_run (msg : bytes) (p : Proc) (c : Chan) :
  writes (jnl p) = Some c ->
  chansend msg p =
    if (length (buf c) <? cap c)%nat
    then Done tt (upd (set_writes (Some (mkChan (cap c) (buf c ++ [msg])))) p)
    else Blocked.
Proof.
  intros Hc. unfold chansend. run_go. rewrite Hc.
  destruct (length (buf c) <? cap c)%nat; reflexivity.
Qed.

Lemma entry_run (stk : list Frame) (pre fmt : bytes) (args : list Arg)
      (p : Proc) (cp : bytes) (p1 : Proc) (ev : bytes) :
  getCodePos stk p = Done cp p1 ->
  extraVars (jnl p1) = Some ev ->
  entry stk pre fmt args p =
    chansend (pre ++ cp ++ ev ++ buildField (lit "MESSAGE") (Fprintf fmt args))
             (logged CallFprintf p1).
Proof.
  intros Hcp Hev. unfold entry.
  unfold bind at 1. rewrite Hcp.
  run_go. rewrite Hev.
  rewrite writeField_app.
  unfold Buffer.Write, Buffer.NewBuffer, Buffer.Bytes. cbn [app].
  rewrite <- !app_assoc. reflexivity.
Qed.

(** A constructed state, field by field. *)
Lemma constructed_shape (p : Proc) :
  constructed p ->
  exists d s ev m q cs, p = shaped d s ev m q cs /\ (length q <= 100)%nat.
Proof.
  intros [Hs H7 H6 H3 Hev Hm (c & Hc & Hcap & Hlen) Hw].
  destruct p as [[d s p7 p6 p3 ev m w] n cs]. cbn in *.
  destruct Hs as [s' ->], Hev as [ev' ->], Hm as [m' ->].
  destruct c as [k q]. cbn in *. subst.
  exists d, s', ev', m', q, cs. split; [reflexivity|assumption].
Qed.

Lemma shape_constructed d s ev m q cs :
  (length q <= 100)%nat -> constructed (shaped d s ev m q cs).
Proof. intros Hq. constructor; cbn; eauto. Qed.

Lemma getCodePos_shape stk d s ev m q cs :
  getCodePos stk (shaped d s ev m q cs) =
    match m !! PC (callerFrame stk) with
    | Some cp => Done cp (shaped d s ev m q (cs ++ [CallCallers]))
    | None =>
        let cp := encodeCodePos (callerFrame stk) in
        Done cp (shaped d s ev (<[PC (callerFrame stk) := cp]> m) q
                        ((cs ++ [CallCallers]) ++ [CallAppendInt]))
    end.
Proof.
  rewrite (getCodePos_run stk _ m) by reflexivity.
  destruct (m !! PC (callerFrame stk)); reflexivity.
Qed.

Lemma entry_shape stk pre fmt args d s ev m q cs :
  entry stk pre fmt args (shaped d s ev m q cs) =
    let msg := buildField (lit "MESSAGE") (Fprintf fmt args) in
    match m !! PC (callerFrame stk) with
    | Some cp =>
        if (length q <? 100)%nat
        then Done tt (shaped d s ev m (q ++ [pre ++ cp ++ ev ++ msg])
                             ((cs ++ [CallCallers]) ++ [CallFprintf]))
        else Blocked
    | None =>
        let cp := encodeCodePos (callerFrame stk) in
        if (length q <? 100)%nat
        then Done tt (shaped d s ev (<[PC (callerFrame stk) := cp]> m)
                             (q ++ [pre ++ cp ++ ev ++ msg])
                             (((cs ++ [CallCallers]) ++ [CallAppendInt])
                                ++ [CallFprintf]))
        else Blocked
    end.
Proof.
  pose proof (getCodePos_shape stk d s ev m q cs) as Hg.
  destruct (m !! PC (callerFrame stk)) as [cp|]; cbv zeta in *.
  - rewrite (entry_run _ _ _ _ _ _ _ ev Hg) by reflexivity.
    rewrite (chansend_run _ _ (mkChan 100 q)) by reflexivity.
    cbn [buf cap]. destruct (length q <? 100)%nat; reflexivity.
  - rewrite (entry_run _ _ _ _ _ _ _ ev Hg) by reflexivity.
    rewrite (chansend_run _ _ (mkChan 100 q)) by reflexivity.
    cbn [buf cap]. destruct (length q <? 100)%nat; reflexivity.
Qed.

Lemma Infof_shape stk fmt args d s ev m q cs :
  Infof stk fmt args (shaped d s ev m q cs) =
    entry stk (buildField (lit "PRIORITY") (lit "6")) fmt args
          (shaped d s ev m q cs).
Proof. reflexivity. Qed.

Lemma Errorf_shape stk fmt args d s ev m q cs :
  Errorf stk fmt args (shaped d s ev m q cs) =
    entry stk (buildField (lit "PRIORITY") (lit "3")) fmt args
          (shaped d s ev m q cs).
Proof. reflexivity. Qed.

Lemma Debugf_shape stk fmt args d s ev m q cs :
  Debugf stk fmt args (shaped d s ev m q cs) =
    if d then entry stk (buildField (lit "PRIORITY") (lit "7")) fmt args
                    (shaped d s ev m q cs)
    else Done tt (shaped d s ev m q cs).
Proof. destruct d; reflexivity. Qed.

Lemma AddVariable_shape name value d s ev m q cs :
  AddVariable name value (shaped d s ev m q cs) =
    Done tt (shaped d s (ev ++ buildField name value) m q cs).
Proof.
  unfold AddVariable. run_go. cbn. rewrite writeField_app. reflexivity.
Qed.

Lemma writer_shape d s ev m q cs :
  writer (shaped d s ev m q cs) =
    match q with
    | [] => Blocked
    | msg :: rest =>
        Done tt (shaped d (mkConn (written s ++ [msg])) ev m rest cs)
    end.
Proof. destruct q; reflexivity. Qed.

(** ** Steps extend the state *)

Lemma shaped_extends d s ev m q cs d' s' ev' m' q' cs' :
  (length q' <= 100)%nat ->
  (forall pc b, m !! pc = Some b -> m' !! pc = Some b) ->
  (exists suf, ev' = ev ++ suf) ->
  (exists new, written s' ++ q' = (written s ++ q) ++ new) ->
  extends (shaped d s ev m q cs) (shaped d' s' ev' m' q' cs').
Proof.
  intros Hq Hm Hev Hh. unfold extends. cbn.
  split; [now apply shape_constructed|]. auto.
Qed.

Lemma extends_refl p : constructed p -> extends p p.
Proof.
  intros Hc. unfold extends. split; [assumption|].
  split; [auto|]. split; exists []; now rewrite app_nil_r.
Qed.

Lemma extends_trans p1 p2 p3 :
  extends p1 p2 -> extends p2 p3 -> extends p1 p3.
Proof.
  intros (_ & Hm1 & (e1 & He1) & (n1 & Hn1))
         (Hk & Hm2 & (e2 & He2) & (n2 & Hn2)).
  unfold extends. split; [assumption|]. split; [auto|].
  split; [exists (e1 ++ e2); rewrite He2, He1, app_assoc; reflexivity|].
  exists (n1 ++ n2). rewrite Hn2, Hn1, !app_assoc. reflexivity.
Qed.

Lemma insert_fresh_keeps (m : gmap Z bytes) (pc : Z) (v : bytes) :
  m !! pc = None ->
  forall k b, m !! k = Some b -> <[pc := v]> m !! k = Some b.
Proof.
  intros Hfresh k b Hb. destruct (decide (pc = k)) as [<-|Hne].
  - congruence.
  - now rewrite lookup_insert_ne.
Qed.

Lemma insert_coherent sym (m : gmap Z bytes) (pc : Z) (v : bytes) :
  v = encodeCodePos (sym pc) ->
  (forall k b, m !! k = Some b -> b = encodeCodePos (sym k)) ->
  forall k b, <[pc := v]> m !! k = Some b -> b = encodeCodePos (sym k).
Proof.
  intros Hv Hco k b. destruct (decide (pc = k)) as [<-|Hne].
  - rewrite lookup_insert_eq. now intros [= <-].
  - rewrite lookup_insert_ne by assumption. apply Hco.
Qed.

Lemma getCodePos_extends stk d s ev m q cs cp p' :
  (length q <= 100)%nat ->
  getCodePos stk (shaped d s ev m q cs) = Done cp p' ->
  extends (shaped d s ev m q cs) p'.
Proof.
  intros Hq. rewrite getCodePos_shape.
  destruct (m !! PC (callerFrame stk)) as [b|] eqn:Hl; cbv zeta;
    intros [= <- <-]; apply shaped_extends.
  - assumption.
  - auto.
  - exists []. now rewrite app_nil_r.
  - exists []. now rewrite app_nil_r.
  - assumption.
  - now apply insert_fresh_keeps.
  - exists []. now rewrite app_nil_r.
  - exists []. now rewrite app_nil_r.
Qed.

Lemma entry_extends stk pre fmt args d s ev m q cs p' :
  (length q <= 100)%nat ->
  entry stk pre fmt args (shaped d s ev m q cs) = Done tt p' ->
  extends (shaped d s ev m q cs) p'.
Proof.
  intros Hq. rewrite entry_shape. cbv zeta.
  destruct (Nat.ltb_spec (length q) 100) as [Hlt|Hge];
    [|destruct (m !! PC (callerFrame stk)); discriminate].
  destruct (m !! PC (callerFrame stk)) as [b|] eqn:Hl;
    intros [= <-]; apply shaped_extends.
  - rewrite length_app. cbn [length]. lia.
  - auto.
  - exists []. now rewrite app_nil_r.
  - eexists [_]. now rewrite app_assoc.
  - rewrite length_app. cbn [length]. lia.
  - now apply insert_fresh_keeps.
  - exists []. now rewrite app_nil_r.
  - eexists [_]. now rewrite app_assoc.
Qed.

Lemma exec_extends op p p' :
  constructed p -> exec op p = Done tt p' -> extends p p'.
Proof.
  intros Hc Hex.
  destruct (constructed_shape p Hc) as (d & s & ev & m & q & cs & -> & Hq).
  destruct op as [b|name value|stk fmt args|stk fmt args|stk fmt args];
    cbn [exec] in Hex.
  - injection Hex as <-. apply (shaped_extends d s ev m q cs b s ev m q cs);
      eauto; exists []; now rewrite app_nil_r.
  - rewrite AddVariable_shape in Hex. injection Hex as <-.
    apply shaped_extends; eauto. exists []; now rewrite app_nil_r.
  - rewrite Debugf_shape in Hex. destruct d.
    + eapply entry_extends; [assumption|exact Hex].
    + injection Hex as <-. apply extends_refl. now apply shape_constructed.
  - rewrite Infof_shape in Hex. eapply entry_extends; [assumption|exact Hex].
  - rewrite Errorf_shape in Hex. eapply entry_extends; [assumption|exact Hex].
Qed.

Lemma writer_extends p p' :
  constructed p -> writer p = Done tt p' -> extends p p'.
Proof.
  intros Hc Hex.
  destruct (constructed_shape p Hc) as (d & s & ev & m & q & cs & -> & Hq).
  rewrite writer_shape in Hex. destruct q as [|msg rest]; [discriminate|].
  injection Hex as <-. apply shaped_extends; eauto.
  - cbn in Hq. lia.
  - exists []; now rewrite app_nil_r.
  - exists []. cbn. rewrite <- !app_assoc, app_nil_r. reflexivity.
Qed.

Lemma step_extends ok p p' :
  constructed p -> step ok p p' -> extends p p'.
Proof.
  intros Hc Hst. inversion Hst as [op q q' Hok Hex|q q' _ Hex]; subst.
  - eapply exec_extends; eassumption.
  - eapply writer_extends; eassumption.
Qed.

Lemma steps_extends ok p p' :
  constructed p -> rtc (step ok) p p' -> extends p p'.
Proof.
  intros Hc Hsteps. induction Hsteps as [p|p p1 p2 Hst _ IH].
  - now apply extends_refl.
  - pose proof (step_extends ok p p1 Hc Hst) as He.
    eapply extends_trans; [exact He|]. apply IH. apply He.
Qed.

(** ** Steps keep the cache coherent *)

Lemma getCodePos_keeps_coherent sym stk p cp p' :
  constructed p -> coherent sym p -> symbolized sym stk ->
  getCodePos stk p = Done cp p' ->
  coherent sym p' /\ cp = encodeCodePos (callerFrame stk).
Proof.
  intros Hc Hco Hsym.
  destruct (constructed_shape p Hc) as (d & s & ev & m & q & cs & -> & Hq).
  rewrite getCodePos_shape.
  destruct (m !! PC (callerFrame stk)) as [b|] eqn:Hl; cbv zeta;
    intros [= <- <-].
  - split; [exact Hco|]. rewrite (Hco _ _ Hl), Hsym. reflexivity.
  - split; [|reflexivity]. unfold coherent. cbn.
    apply insert_coherent; [now rewrite Hsym|exact Hco].
Qed.

Lemma entry_keeps_coherent sym stk pre fmt args p p' :
  constructed p -> coherent sym p -> symbolized sym stk ->
  entry stk pre fmt args p = Done tt p' ->
  coherent sym p'.
Proof.
  intros Hc Hco Hsym.
  destruct (constructed_shape p Hc) as (d & s & ev & m & q & cs & -> & Hq).
  rewrite entry_shape. cbv zeta.
  destruct (length q <? 100)%nat;
    destruct (m !! PC (callerFrame stk)) as [b|] eqn:Hl;
    try discriminate; intros [= <-].
  - exact Hco.
  - unfold coherent. cbn.
    apply insert_coherent; [now rewrite Hsym|exact Hco].
Qed.

Lemma step_keeps_coherent sym p p' :
  constructed p -> coherent sym p -> step (symbolized sym) p p' ->
  coherent sym p'.
Proof.
  intros Hc Hco Hst.
  inversion Hst as [op q q' Hok Hex|q q' _ Hex]; subst.
  - destruct op as [b|name value|stk fmt args|stk fmt args|stk fmt args];
      cbn [exec] in Hex.
    + injection Hex as <-. exact Hco.
    + unfold AddVariable, GoM.bind, GoM.getJ, GoM.updJ, GoM.panic in Hex.
      destruct (extraVars (jnl p)); [|discriminate].
      injection Hex as <-. exact Hco.
    + unfold Debugf, GoM.bind, GoM.getJ, GoM.ret in Hex.
      destruct (Debug (jnl p)); cbn [negb] in Hex.
      * eapply entry_keeps_coherent; [exact Hc|exact Hco| |exact Hex].
        apply Hok. reflexivity.
      * injection Hex as <-. exact Hco.
    + eapply entry_keeps_coherent; [exact Hc|exact Hco| |exact Hex].
      apply Hok. reflexivity.
    + eapply entry_keeps_coherent; [exact Hc|exact Hco| |exact Hex].
      apply Hok. reflexivity.
  - destruct (constructed_shape p Hc) as (d & s & ev & m & q & cs & -> & Hq).
    rewrite writer_shape in Hex. destruct q as [|msg rest]; [discriminate|].
    injection Hex as <-. exact Hco.
Qed.

Lemma steps_keep_coherent sym p p' :
  constructed p -> coherent sym p -> rtc (step (symbolized sym)) p p' ->
  coherent sym p'.
Proof.
  intros Hc Hco Hsteps. induction Hsteps as [p|p p1 p2 Hst _ IH].
  - exact Hco.
  - apply IH.
    + apply (step_extends _ p p1 Hc Hst).
    + eapply step_keeps_coherent; eassumption.
Qed.

Lemma New_shape p0 :
  fst New = Some p0 -> exists s, p0 = shaped false s [] ∅ [] [].
Proof.
  unfold New. destruct (Dial _ _) as [s|e]; [|discriminate].
  intros [= <-]. exists s. reflexivity.
Qed.

Lemma New_constructed sym p0 :
  fst New = Some p0 -> constructed p0 /\ coherent sym p0.
Proof.
  intros Hn. destruct (New_shape p0 Hn) as [s ->]. split.
  - apply shape_constructed. cbn. lia.
  - intros pc b. cbn. rewrite lookup_empty. discriminate.
Qed.

Lemma reachable_constructed ok p : reachable ok p -> constructed p.
Proof.
  intros (p0 & Hn & Hsteps).
  destruct (New_constructed (fun _ => zeroFrame) p0 Hn) as [Hc _].
  apply (steps_extends ok p0 p Hc Hsteps).
Qed.

Lemma reachable_coherent sym p :
  reachable (symbolized sym) p -> coherent sym p.
Proof.
  intros (p0 & Hn & Hsteps).
  destruct (New_constructed sym p0 Hn) as [Hc Hco].
  eapply steps_keep_coherent; eassumption.
Qed.

Lemma reachable_steps ok p p' :
  reachable ok p -> rtc (step ok) p p' -> reachable ok p'.
Proof.
  intros (p0 & Hn & Hsteps) Hmore. exists p0. split; [assumption|].
  eapply rtc_trans; eassumption.
Qed.

(** A process whose stacks satisfy [ok] is one whose stacks satisfy
    anything [ok] implies. *)
Lemma step_mono (ok ok' : list Frame -> Prop) p p' :
  (forall stk, ok stk -> ok' stk) -> step ok p p' -> step ok' p p'.
Proof.
  intros Himp Hst. inversion Hst as [op q q' Hok Hex|q q' Hw Hex]; subst.
  - eapply step_op; [|exact Hex]. intros stk Hstk. apply Himp, Hok, Hstk.
  - eapply step_writer; eassumption.
Qed.

Lemma reachable_mono (ok ok' : list Frame -> Prop) p :
  (forall stk, ok stk -> ok' stk) -> reachable ok p -> reachable ok' p.
Proof.
  intros Himp (p0 & Hn & Hsteps). exists p0. split; [assumption|].
  clear Hn. induction Hsteps as [x|x y z Hst _ IH]; [constructor|].
  eapply rtc_l; [|exact IH]. eapply step_mono; eassumption.
Qed.

(** Calls made one after the other from the state [New] leaves reach a
    state of the process. *)
Lemma run_ops_reachable (ok : list Frame -> Prop) (ops : list Op) (p0 p : Proc) :
  fst New = Some p0 ->
  Forall (fun op => forall stk, op_stack op = Some stk -> ok stk) ops ->
  run_ops ops p0 = Some p ->
  reachable ok p.
Proof.
  intros Hn Hok Hrun. exists p0. split; [exact Hn|].
  clear Hn. revert p0 Hok Hrun.
  induction ops as [|op ops IH]; intros p0 Hok Hrun.
  - injection Hrun as <-. constructor.
  - inversion Hok as [|? ? Hop Hrest]; subst. cbn [run_ops] in Hrun.
    destruct (exec op p0) as [[] p1| |] eqn:Hex; try discriminate.
    eapply rtc_l; [|apply IH; eassumption].
    eapply step_op; eassumption.
Qed.

End Runs.

(** ** The caller resolver *)

Section Resolver.
Context `{Env}.

(** Is the frame one of the logging library's functions? *)
Let logging (f : Frame) : Prop := IsLoggingFunction (Func f) = true.

(** The loop passes over logging frames and stops at the first frame
    that is not one, or at the last frame there is. *)
Lemma skipLogging_stops (rest : list Frame) (f : Frame) :
  exists skipped after,
    f :: rest
    = skipped
        ++ skipLogging rest f (match rest with [] => false | _ :: _ => true end)
        :: after
    /\ Forall logging skipped
    /\ (after = [] \/ IsLoggingFunction (Func
          (skipLogging rest f
             (match rest with [] => false | _ :: _ => true end))) = false).
Proof.
  revert f. induction rest as [|g rest IH]; intros f.
  - exists [], []. cbn. auto.
  - cbn [skipLogging andb Runtime.Next].
    destruct (IsLoggingFunction (Func f)) eqn:Hf.
    + destruct (IH g) as (skipped & after & Heq & Hall & Hstop).
      exists (f :: skipped), after. cbn [app]. rewrite <- Heq.
      split; [reflexivity|]. split; [|exact Hstop].
      constructor; assumption.
    + exists [], (g :: rest). cbn [app]. auto.
Qed.

Lemma callerFrame_captured (stk : list Frame) :
  callerFrame stk =
    match Runtime.Callers 3 4 stk with
    | [] => zeroFrame
    | f :: rest =>
        skipLogging rest f (match rest with [] => false | _ :: _ => true end)
    end.
Proof.
  unfold callerFrame. destruct (Runtime.Callers 3 4 stk) as [|f rest];
    reflexivity.
Qed.

Lemma skipLogging_all (rest : list Frame) (f : Frame) :
  Forall logging (f :: rest) ->
  skipLogging rest f (match rest with [] => false | _ :: _ => true end)
  = List.last (f :: rest) zeroFrame.
Proof.
  revert f. induction rest as [|g rest IH]; intros f Hall.
  - reflexivity.
  - cbn [skipLogging Runtime.Next].
    inversion Hall as [|? ? Hf Hrest]; subst. unfold logging in Hf.
    rewrite Hf. cbn [andb]. rewrite (IH g Hrest). reflexivity.
Qed.

(** The bytes [encodeCodePos] builds: the three fields, in this
    order. *)
Lemma encodeCodePos_layout (f : Frame) :
  encodeCodePos f
  = buildField (lit "CODE_FILE") (File f)
      ++ buildField (lit "CODE_LINE") (Strconv.AppendInt [] (Line f))
      ++ buildField (lit "CODE_FUNC") (Function f).
Proof.
  unfold encodeCodePos, Buffer.NewBuffer, Buffer.Bytes.
  rewrite !writeField_app. cbn [app]. rewrite <- app_assoc. reflexivity.
Qed.

Lemma getCodePos_total (p : Proc) (stk : list Frame) :
  constructed p ->
  exists cp p', getCodePos stk p = Done cp p'
    /\ mapaccess (codePos (jnl p')) (PC (callerFrame stk)) = Some cp
    /\ (mapaccess (codePos (jnl p)) (PC (callerFrame stk)) = Some cp \/
        (mapaccess (codePos (jnl p)) (PC (callerFrame stk)) = None
         /\ cp = encodeCodePos (callerFrame stk))).
Proof.
  intros Hc.
  destruct (constructed_shape p Hc) as (d & s & ev & m & q & cs & -> & Hq).
  rewrite getCodePos_shape.
  change (mapaccess (codePos (jnl (shaped d s ev m q cs))) (PC (callerFrame stk)))
    with (m !! PC (callerFrame stk)).
  destruct (m !! PC (callerFrame stk)) as [b|] eqn:Hl.
  - eexists _, _. split; [reflexivity|]. split; [exact Hl|]. left. reflexivity.
  - eexists _, _. split; [reflexivity|]. cbn.
    split; [apply lookup_insert_eq|]. right. split; reflexivity.
Qed.

(** C8. The resolver is total, and what it returns is the location of
    the last frame the walk reached.  From any state a constructed
    journal can be in and for any stack, [getCodePos] returns (it
    neither panics nor blocks).  The frame the walk stops at is the
    last one it reached: it is preceded by logging frames only, and it
    is either not a logging frame or the last frame captured; when
    every captured frame is a logging frame it is the last of them, and
    a stack too shallow to yield any frame gives the zero frame.  The
    bytes returned are those the cache held for the PC of that frame
    or, when it held none, the three fields CODE_FILE, CODE_LINE and
    CODE_FUNC with the file, the line in decimal and the function of
    that frame, which the cache holds afterwards.  In a program whose
    symbol table has one frame for each PC the two cases agree: the
    bytes returned are always the three fields of the frame the walk
    stopped at. *)
Theorem resolver_total (ok : list Frame -> Prop) (sym : Z -> Frame)
        (p : Proc) (stk : list Frame) :
  reachable ok p ->
  (exists cp p',
      getCodePos stk p = Done cp p'
      /\ mapaccess (codePos (jnl p')) (PC (callerFrame stk)) = Some cp
      /\ (mapaccess (codePos (jnl p)) (PC (callerFrame stk)) = Some cp \/
          (mapaccess (codePos (jnl p)) (PC (callerFrame stk)) = None /\
           cp = buildField (lit "CODE_FILE") (File (callerFrame stk))
                  ++ buildField (lit "CODE_LINE")
                       (Strconv.AppendInt [] (Line (callerFrame stk)))
                  ++ buildField (lit "CODE_FUNC")
                       (Function (callerFrame stk))))
      /\ ((forall stk', ok stk' -> symbolized sym stk') ->
          symbolized sym stk ->
          cp = buildField (lit "CODE_FILE") (File (callerFrame stk))
                 ++ buildField (lit "CODE_LINE")
                      (Strconv.AppendInt [] (Line (callerFrame stk)))
                 ++ buildField (lit "CODE_FUNC")
                      (Function (callerFrame stk))
          /\ (Z.of_nat (length (File (callerFrame stk))) < 2 ^ 64 ->
              Z.of_nat (length (Function (callerFrame stk))) < 2 ^ 64 ->
              Wire.parse_record cp
              = Some [ (lit "CODE_FILE", File (callerFrame stk));
                       (lit "CODE_LINE",
                        Strconv.AppendInt [] (Line (callerFrame stk)));
                       (lit "CODE_FUNC", Function (callerFrame stk)) ]))) /\
  match Runtime.Callers 3 4 stk with
  | [] => callerFrame stk = zeroFrame
  | captured =>
      exists skipped after,
        captured = skipped ++ callerFrame stk :: after
        /\ Forall (fun f => IsLoggingFunction (Func f) = true) skipped
        /\ (after = [] \/ IsLoggingFunction (Func (callerFrame stk)) = false)
  end /\
  (Forall (fun f => IsLoggingFunction (Func f) = true) (Runtime.Callers 3 4 stk) ->
   callerFrame stk = List.last (Runtime.Callers 3 4 stk) zeroFrame).
Proof.
  intros Hr. pose proof (reachable_constructed ok p Hr) as Hc.
  split.
  - destruct (getCodePos_total p stk Hc) as (cp & p' & Hrun & Hslot & Hold).
    exists cp, p'. split; [exact Hrun|]. split; [exact Hslot|]. split.
    + destruct Hold as [Hhit|[Hmiss ->]]; [left; exact Hhit|right].
      split; [exact Hmiss|apply encodeCodePos_layout].
    + intros Hok Hsym.
      pose proof (reachable_coherent sym p (reachable_mono _ _ p Hok Hr)) as Hco.
      destruct (getCodePos_keeps_coherent sym stk p cp p' Hc Hco Hsym Hrun)
        as [_ ->].
      split; [apply encodeCodePos_layout|]. intros Hfile Hfunc.
      rewrite encodeCodePos_layout.
      match goal with
      | |- Wire.parse_record ?r = Some ?fs =>
          replace r with (encode_fields fs)
      end.
      * apply parse_record_encode.
        repeat constructor; cbn [fst snd];
          try assumption; try apply AppendInt_length;
          cbn; unfold NL; intuition discriminate.
      * unfold encode_fields. cbn [map concat fst snd].
        rewrite app_nil_r. reflexivity.
  - rewrite callerFrame_captured.
    destruct (Runtime.Callers 3 4 stk) as [|f rest].
    + split; reflexivity.
    + split; [apply skipLogging_stops|]. apply skipLogging_all.
Qed.


(** Whatever the frames are, no more than four are captured, and none
    from below depth 6. *)
Lemma walk_window (stk : list Frame) :
  (length (Runtime.Callers 3 4 stk) <= 4)%nat /\
  callerFrame stk = callerFrame (firstn 7 stk).
Proof.
  split.
  - unfold Runtime.Callers. rewrite length_take. lia.
  - unfold callerFrame, Runtime.Callers.
    do 7 (destruct stk as [|? stk]; [reflexivity|]).
    reflexivity.
Qed.

End Resolver.

Lemma once_reachable :
  @reachable Demo.env (@symbolized Demo.env Demo.sym) DemoStates.once.
Proof.
  apply (@run_ops_reachable Demo.env _ DemoStates.once_ops Demo.start).
  - reflexivity.
  - repeat constructor; intros stk Hs; cbn in Hs; try discriminate;
      injection Hs as <-; reflexivity.
  - vm_compute. reflexivity.
Qed.

(** The call site of [runTest], resolved when the cache holds it
    already: the bytes returned are the three fields of the frame of
    [runTest].  A goroutine started as [go lg.Infof(...)] resolves to
    [runtime.goexit], the last frame there is. *)
Lemma resolver_total_witness :
  (exists cp p',
      @getCodePos Demo.env Demo.stack DemoStates.once = Done cp p'
      /\ cp = buildField (lit "CODE_FILE") (File Demo.fRunTest)
               ++ buildField (lit "CODE_LINE")
                    (Strconv.AppendInt [] (Line Demo.fRunTest))
               ++ buildField (lit "CODE_FUNC") (Function Demo.fRunTest)
      /\ Wire.parse_record cp
         = Some [ (lit "CODE_FILE", lit "cmd/demo/journal.go");
                  (lit "CODE_LINE", lit "31");
                  (lit "CODE_FUNC", lit "main.runTest") ]) /\
  @callerFrame Demo.env Demo.stack = Demo.fRunTest /\
  @callerFrame Demo.env Demo.stack_shallow = Demo.fGoexit.
Proof.
  destruct (@resolver_total Demo.env (@symbolized Demo.env Demo.sym) Demo.sym
              DemoStates.once Demo.stack once_reachable)
    as ((cp & p' & Hrun & _ & _ & Hbytes) & _ & _).
  destruct (Hbytes (fun _ Hok => Hok) eq_refl) as [Hcp Hparse].
  split; [|split; reflexivity].
  exists cp, p'. split; [exact Hrun|]. split; [exact Hcp|].
  apply Hparse; vm_compute; reflexivity.
Defined.


(** ** The cache of caller locations *)

Section Cache.
Context `{Env}.

Lemma stackWalks_logged (p : Proc) :
  stackWalks (logged CallCallers p) = S (stackWalks p).
Proof.
  unfold stackWalks, logged. cbn [calls].
  rewrite filter_app, length_app.
  change (filter (fun c => c = CallCallers) [CallCallers]) with [CallCallers].
  cbn [length]. lia.
Qed.

(** C4, as the code has it.  For a call site the symbol table knows,
    [getCodePos] returns the encoding of the frame the walk stops at,
    from any reachable state.  After that, whatever the process does,
    the cache holds these bytes under the frame's PC, and a further
    resolution returns them without encoding or storing anything: the
    state changes by one more call of [runtime.Callers] and nothing
    else.  So the cached and the fresh bytes agree, and the stack is
    walked on every resolution. *)
Theorem resolver_cache (sym : Z -> Frame) (p : Proc) (stk : list Frame) :
  reachable (symbolized sym) p ->
  symbolized sym stk ->
  exists p1,
    getCodePos stk p = Done (encodeCodePos (callerFrame stk)) p1 /\
    forall p2, rtc (step (symbolized sym)) p1 p2 ->
      mapaccess (codePos (jnl p2)) (PC (callerFrame stk))
      = Some (encodeCodePos (callerFrame stk)) /\
      getCodePos stk p2
      = Done (encodeCodePos (callerFrame stk)) (logged CallCallers p2) /\
      stackWalks (logged CallCallers p2) = S (stackWalks p2).
Proof.
  intros Hr Hsym. pose proof (reachable_constructed _ p Hr) as Hc.
  pose proof (reachable_coherent sym p Hr) as Hco.
  destruct (constructed_shape p Hc) as (d & s & ev & m & q & cs & -> & Hq).
  assert (Hfirst : exists p1,
             getCodePos stk (shaped d s ev m q cs)
             = Done (encodeCodePos (callerFrame stk)) p1).
  { rewrite getCodePos_shape.
    destruct (m !! PC (callerFrame stk)) as [b|] eqn:Hl.
    - rewrite (Hco _ _ Hl), Hsym. eauto.
    - eauto. }
  destruct Hfirst as [p1 Hp1]. exists p1. split; [exact Hp1|].
  pose proof (getCodePos_extends stk d s ev m q cs _ p1 Hq Hp1)
    as (Hc1 & _).
  assert (Hin : mapaccess (codePos (jnl p1)) (PC (callerFrame stk))
                = Some (encodeCodePos (callerFrame stk))).
  { destruct (getCodePos_total _ stk (shape_constructed d s ev m q cs Hq))
      as (cp & p1' & Hrun & Hcp & _).
    rewrite Hp1 in Hrun. injection Hrun as <- <-. exact Hcp. }
  intros p2 Hsteps.
  destruct (steps_extends _ p1 p2 Hc1 Hsteps) as (Hc2 & Hmono & _).
  specialize (Hmono _ _ Hin).
  split; [exact Hmono|]. split; [|apply stackWalks_logged].
  destruct (constructed_shape p2 Hc2) as (d2 & s2 & ev2 & m2 & q2 & cs2 & -> & _).
  cbn in Hmono. rewrite getCodePos_shape, Hmono. reflexivity.
Qed.

End Cache.

Lemma start_reachable (ok : list Frame -> Prop) :
  @reachable Demo.env ok Demo.start.
Proof. exists Demo.start. split; [reflexivity|constructor]. Qed.

(** The demo's call site, resolved twice. *)
Lemma demo_resolutions :
  exists p1,
    @getCodePos Demo.env Demo.stack Demo.start
    = Done (@encodeCodePos Demo.fRunTest) p1 /\
    @getCodePos Demo.env Demo.stack p1
    = Done (@encodeCodePos Demo.fRunTest) (logged CallCallers p1).
Proof.
  exists (shaped false (mkConn []) []
            (<[PC Demo.fRunTest := @encodeCodePos Demo.fRunTest]> ∅) []
            [CallCallers; CallAppendInt]).
  split; vm_compute; reflexivity.
Qed.

Lemma resolver_cache_witness :
  exists p1,
    @getCodePos Demo.env Demo.stack Demo.start
    = Done (@encodeCodePos Demo.fRunTest) p1 /\
    @getCodePos Demo.env Demo.stack p1
    = Done (@encodeCodePos Demo.fRunTest) (logged CallCallers p1).
Proof.
  destruct (@resolver_cache Demo.env Demo.sym Demo.start Demo.stack)
    as (p1 & Hfirst & Hlater).
  - apply start_reachable.
  - reflexivity.
  - exists p1. split; [exact Hfirst|].
    apply (Hlater p1). constructor.
Defined.

(** C4, as the specification has it, fails: the second resolution of
    the demo's call site walks the stack again. *)
Lemma second_resolution_walks_again :
  ~ @second_resolution_walks_no_stack Demo.env.
Proof.
  intros Hclaim.
  destruct demo_resolutions as (p1 & Hfirst & Hsecond).
  destruct (Hclaim Demo.sym Demo.start p1 (logged CallCallers p1) Demo.stack
              _ _ (start_reachable _) eq_refl Hfirst Hsecond) as [_ Hwalks].
  rewrite stackWalks_logged in Hwalks.
  exact (n_Sn _ (eq_sym Hwalks)).
Qed.

(** ** The leveled logging calls *)

Section Client.
Context `{Env}.

(** The name of the priority field holds no newline. *)
Lemma PRIORITY_no_newline : ~ In NL (lit "PRIORITY").
Proof. cbn. unfold NL. intuition discriminate. Qed.

Lemma priority_parses (level rest : bytes) :
  Z.of_nat (length level) < 2 ^ 64 ->
  Wire.parse_field (buildField (lit "PRIORITY") level ++ rest)
  = Some ((lit "PRIORITY", level), rest).
Proof. apply parse_field_buildField. exact PRIORITY_no_newline. Qed.

(** A call of [entry] from a constructed state with room in the channel
    returns, and puts one record at the end of the channel: the
    preamble, the bytes [getCodePos] gives for the stack, the
    extra-variables buffer, a MESSAGE field. *)
Lemma entry_enqueues (stk : list Frame) (pre fmt : bytes) (args : list Arg)
      (p : Proc) :
  constructed p ->
  (length (queued p) < 100)%nat ->
  exists cp p1 p',
    getCodePos stk p = Done cp p1 /\
    entry stk pre fmt args p = Done tt p' /\
    queued p' = queued p
                ++ [pre ++ cp ++ extra p
                        ++ buildField (lit "MESSAGE") (Fprintf fmt args)].
Proof.
  intros Hc Hroom.
  destruct (constructed_shape p Hc) as (d & s & ev & m & q & cs & -> & Hq).
  cbn in Hroom. rewrite getCodePos_shape, entry_shape. cbv zeta.
  destruct (Nat.ltb_spec (length q) 100) as [_|Hge]; [|lia].
  destruct (m !! PC (callerFrame stk)) as [b|];
    eexists _, _, _; split; try reflexivity; split; reflexivity.
Qed.

(** With a full channel the call is suspended. *)
Lemma entry_blocks (stk : list Frame) (pre fmt : bytes) (args : list Arg)
      (p : Proc) :
  constructed p ->
  length (queued p) = 100%nat ->
  entry stk pre fmt args p = Blocked.
Proof.
  intros Hc Hfull.
  destruct (constructed_shape p Hc) as (d & s & ev & m & q & cs & -> & Hq).
  cbn in Hfull. rewrite entry_shape. cbv zeta.
  destruct (Nat.ltb_spec (length q) 100) as [Hlt|_]; [lia|].
  destruct (m !! PC (callerFrame stk)); reflexivity.
Qed.

Lemma set_Debug_constructed (b : bool) (p : Proc) :
  constructed p -> constructed (upd (set_Debug b) p).
Proof.
  intros Hc.
  destruct (constructed_shape p Hc) as (d & s & ev & m & q & cs & -> & Hq).
  now apply (shape_constructed b s ev m q cs).
Qed.

(** C5. With [Debug] unset a call of [Debugf] returns at once and
    leaves the whole state of the process as it was: nothing is put in
    the channel, and neither [runtime.Callers] nor [fmt.Fprintf] is
    called.  With [Debug] set, and room in the channel, the same call
    puts exactly one record at the end of the channel, and the first
    field of that record reads PRIORITY=7. *)
Theorem Debugf_gate (ok : list Frame -> Prop) (off p : Proc)
        (stk : list Frame) (fmt : bytes) (args : list Arg) :
  Debug (jnl off) = false ->
  reachable ok p ->
  Debug (jnl p) = true ->
  (length (queued p) < 100)%nat ->
  Debugf stk fmt args off = Done tt off /\
  exists p' rest,
    Debugf stk fmt args p = Done tt p' /\
    queued p' = queued p ++ [buildField (lit "PRIORITY") (lit "7") ++ rest] /\
    Wire.parse_field (buildField (lit "PRIORITY") (lit "7") ++ rest)
    = Some ((lit "PRIORITY", lit "7"), rest).
Proof.
  intros Hoff Hr Hon Hroom. split.
  - unfold Debugf, GoM.bind, GoM.getJ, GoM.ret. rewrite Hoff. reflexivity.
  - pose proof (reachable_constructed ok p Hr) as Hc.
    destruct (entry_enqueues stk (priDebug (jnl p)) fmt args p Hc Hroom)
      as (cp & p1 & p' & _ & Hrun & Hq).
    exists p'. eexists. split; [|split].
    + unfold Debugf, GoM.bind, GoM.getJ. rewrite Hon. exact Hrun.
    + rewrite Hq, (c_priDebug p Hc). reflexivity.
    + apply priority_parses. reflexivity.
Qed.

End Client.

Lemma debug_on_reachable (ok : list Frame -> Prop) :
  @reachable Demo.env ok (upd (set_Debug true) Demo.start).
Proof.
  exists Demo.start. split; [reflexivity|].
  apply rtc_once. apply (@step_op Demo.env ok (OpSetDebug true)).
  - intros stk Hstk. discriminate Hstk.
  - reflexivity.
Qed.

Lemma Debugf_gate_witness :
  @Debugf Demo.env Demo.stack_debug (lit "x=%d") [1] Demo.start
  = Done tt Demo.start /\
  exists p' rest,
    @Debugf Demo.env Demo.stack_debug (lit "x=%d") [1]
            (upd (set_Debug true) Demo.start) = Done tt p' /\
    queued p' = [buildField (lit "PRIORITY") (lit "7") ++ rest].
Proof.
  destruct (@Debugf_gate Demo.env (fun _ => True) Demo.start
              (upd (set_Debug true) Demo.start)
              Demo.stack_debug (lit "x=%d") [1])
    as (Hoff & p' & rest & Hon & Hq & _).
  - reflexivity.
  - apply debug_on_reachable.
  - reflexivity.
  - cbn. lia.
  - split; [exact Hoff|]. exists p', rest. split; [exact Hon|exact Hq].
Defined.

(** ** The record assembler *)

Section Assembly.
Context `{Env}.

Lemma encodeCodePos_fields (f : Frame) :
  encodeCodePos f
  = encode_fields [ (lit "CODE_FILE", File f);
                    (lit "CODE_LINE", Strconv.AppendInt [] (Line f));
                    (lit "CODE_FUNC", Function f) ].
Proof.
  unfold encodeCodePos, encode_fields, Buffer.NewBuffer, Buffer.Bytes.
  rewrite !writeField_app. cbn [map concat fst snd app].
  rewrite app_nil_r, <- app_assoc. reflexivity.
Qed.

(** The record a leveled call assembles, by its preamble. *)
Lemma leveled_record (sym : Z -> Frame) (p : Proc) (stk : list Frame)
      (pre fmt : bytes) (args : list Arg) :
  constructed p -> coherent sym p -> symbolized sym stk ->
  (length (queued p) < 100)%nat ->
  exists p',
    entry stk pre fmt args p = Done tt p' /\
    queued p' = queued p
                ++ [pre ++ encodeCodePos (callerFrame stk) ++ extra p
                        ++ buildField (lit "MESSAGE") (Fprintf fmt args)].
Proof.
  intros Hc Hco Hsym Hroom.
  destruct (entry_enqueues stk pre fmt args p Hc Hroom)
    as (cp & p1 & p' & Hcp & Hrun & Hq).
  exists p'. split; [exact Hrun|].
  destruct (getCodePos_keeps_coherent sym stk p cp p1 Hc Hco Hsym Hcp)
    as [_ ->].
  exact Hq.
Qed.

Lemma names_no_newline :
  ~ In NL (lit "CODE_FILE") /\ ~ In NL (lit "CODE_LINE") /\
  ~ In NL (lit "CODE_FUNC") /\ ~ In NL (lit "FOO") /\
  ~ In NL (lit "MESSAGE").
Proof. cbn. unfold NL. intuition discriminate. Qed.

(** C3. From any state a process can reach after [New], and for a call
    site the symbol table knows, each leveled call with room in the
    channel puts one record at the end of the channel, and that record
    is, in this order: the priority field of the level (6 for [Infof],
    3 for [Errorf], 7 for [Debugf] with [Debug] set), the three
    caller-location fields of the frame the walk stops at, the contents
    of the extra-variables buffer, one MESSAGE field holding the
    formatted message.  In particular [AddVariable("FOO", "bar")]
    followed by [Infof] right after [New] puts one record in the
    channel, which reads back as the six fields PRIORITY=6, CODE_FILE,
    CODE_LINE, CODE_FUNC, FOO=bar, MESSAGE: FOO=bar once, MESSAGE
    once. *)
Theorem record_layout (sym : Z -> Frame) (p0 p : Proc)
        (stk : list Frame) (fmt : bytes) (args : list Arg) :
  fst New = Some p0 ->
  rtc (step (symbolized sym)) p0 p ->
  symbolized sym stk ->
  (length (queued p) < 100)%nat ->
  Z.of_nat (length (File (callerFrame stk))) < 2 ^ 64 ->
  Z.of_nat (length (Function (callerFrame stk))) < 2 ^ 64 ->
  Z.of_nat (length (Fprintf fmt args)) < 2 ^ 64 ->
  let record (level : bytes) :=
    buildField (lit "PRIORITY") level
      ++ encodeCodePos (callerFrame stk)
      ++ extra p
      ++ buildField (lit "MESSAGE") (Fprintf fmt args) in
  (exists p', Infof stk fmt args p = Done tt p'
              /\ queued p' = queued p ++ [record (lit "6")]) /\
  (exists p', Errorf stk fmt args p = Done tt p'
              /\ queued p' = queued p ++ [record (lit "3")]) /\
  (exists p', Debugf stk fmt args (upd (set_Debug true) p) = Done tt p'
              /\ queued p' = queued p ++ [record (lit "7")]) /\
  (exists p1 p2 r,
      AddVariable (lit "FOO") (lit "bar") p0 = Done tt p1 /\
      Infof stk fmt args p1 = Done tt p2 /\
      queued p2 = [r] /\
      Wire.parse_record r
      = Some [ (lit "PRIORITY", lit "6");
               (lit "CODE_FILE", File (callerFrame stk));
               (lit "CODE_LINE", Strconv.AppendInt [] (Line (callerFrame stk)));
               (lit "CODE_FUNC", Function (callerFrame stk));
               (lit "FOO", lit "bar");
               (lit "MESSAGE", Fprintf fmt args) ]).
Proof.
  intros Hnew Hsteps Hsym Hroom Hfile Hfunc Hmsg record.
  assert (Hr : reachable (symbolized sym) p) by (exists p0; auto).
  pose proof (reachable_constructed _ p Hr) as Hc.
  pose proof (reachable_coherent sym p Hr) as Hco.
  split; [|split; [|split]].
  - destruct (leveled_record sym p stk (priInfo (jnl p)) fmt args
                Hc Hco Hsym Hroom) as (p' & Hrun & Hq).
    exists p'. split; [exact Hrun|].
    rewrite Hq, (c_priInfo p Hc). reflexivity.
  - destruct (leveled_record sym p stk (priError (jnl p)) fmt args
                Hc Hco Hsym Hroom) as (p' & Hrun & Hq).
    exists p'. split; [exact Hrun|].
    rewrite Hq, (c_priError p Hc). reflexivity.
  - destruct (constructed_shape p Hc) as (d & s & ev & m & q & cs & -> & Hq0).
    assert (Hc' : constructed (shaped true s ev m q cs))
      by now apply shape_constructed.
    destruct (leveled_record sym (shaped true s ev m q cs) stk
                (buildField (lit "PRIORITY") (lit "7")) fmt args
                Hc' Hco Hsym Hroom) as (p' & Hrun & Hq).
    exists p'. split; [exact Hrun|exact Hq].
  - destruct (New_shape p0 Hnew) as [s ->].
    rewrite AddVariable_shape. cbn [app].
    eexists _, _, _. split; [reflexivity|].
    rewrite Infof_shape, entry_shape, lookup_empty. cbv zeta.
    change (length (@nil bytes) <? 100)%nat with true. cbv iota.
    split; [reflexivity|]. split; [reflexivity|]. cbn [app].
    rewrite encodeCodePos_fields.
    match goal with
    | |- Wire.parse_record ?r = Some ?fs =>
        replace r with (encode_fields fs)
    end.
    + apply parse_record_encode.
      destruct names_no_newline as (Hn1 & Hn2 & Hn3 & Hn4 & Hn5).
      repeat constructor; cbn [fst snd];
        try assumption; try exact PRIORITY_no_newline;
        try apply AppendInt_length; reflexivity.
    + unfold encode_fields. cbn [map concat fst snd].
      rewrite <- !app_assoc, !app_nil_r. reflexivity.
Qed.

End Assembly.

(** The example of the specification: [AddVariable("FOO", "bar")], then
    [Infof("x=%d", 1)] from [runTest]. *)
Lemma record_layout_witness :
  exists p1 p2 r,
    AddVariable (lit "FOO") (lit "bar") Demo.start = Done tt p1 /\
    @Infof Demo.env Demo.stack (lit "x=%d") [1] p1 = Done tt p2 /\
    queued p2 = [r] /\
    Wire.parse_record r
    = Some [ (lit "PRIORITY", lit "6");
             (lit "CODE_FILE", lit "cmd/demo/journal.go");
             (lit "CODE_LINE", lit "31");
             (lit "CODE_FUNC", lit "main.runTest");
             (lit "FOO", lit "bar");
             (lit "MESSAGE", lit "x=1") ].
Proof.
  destruct (@record_layout Demo.env Demo.sym Demo.start Demo.start
              Demo.stack (lit "x=%d") [1])
    as (_ & _ & _ & Hex).
  - reflexivity.
  - constructor.
  - reflexivity.
  - cbn. lia.
  - vm_compute. reflexivity.
  - vm_compute. reflexivity.
  - vm_compute. reflexivity.
  - exact Hex.
Defined.

(** ** Construction, and what can go wrong afterwards *)

Section Construction.
Context `{Env}.

Lemma exec_outcome (op : Op) (p : Proc) :
  constructed p ->
  (exists p', exec op p = Done tt p') \/
  (exec op p = Blocked /\ length (queued p) = 100%nat).
Proof.
  intros Hc.
  destruct (constructed_shape p Hc) as (d & s & ev & m & q & cs & -> & Hq).
  assert (Hentry : forall stk pre fmt args,
             (exists p', entry stk pre fmt args (shaped d s ev m q cs)
                         = Done tt p') \/
             (entry stk pre fmt args (shaped d s ev m q cs) = Blocked
              /\ length q = 100%nat)).
  { intros stk pre fmt args.
    destruct (Nat.eq_dec (length q) 100%nat) as [Hfull|Hroom].
    - right. split; [|exact Hfull]. now apply entry_blocks.
    - left. destruct (entry_enqueues stk pre fmt args (shaped d s ev m q cs))
        as (cp & p1 & p' & _ & Hrun & _); [assumption|cbn; lia|eauto]. }
  destruct op as [b|name value|stk fmt args|stk fmt args|stk fmt args];
    cbn [exec].
  - left. eexists. reflexivity.
  - left. rewrite AddVariable_shape. eexists. reflexivity.
  - rewrite Debugf_shape. destruct d; [apply Hentry|].
    left. eexists. reflexivity.
  - rewrite Infof_shape. apply Hentry.
  - rewrite Errorf_shape. apply Hentry.
Qed.

(** C6. [New] fails exactly when [net.Dial] cannot open the Unix
    datagram socket at /run/systemd/journal/socket: it then returns the
    error of [Dial] and no journal, and otherwise a journal and no
    error.  Afterwards nothing fails: from every state the process can
    reach, assigning [Debug] and calling [AddVariable], [Debugf],
    [Infof] or [Errorf] either returns, or waits for room in a full
    channel; none of them panics, and none has an error to return. *)
Theorem New_only_failure (ok : list Frame -> Prop) (p : Proc) (op : Op) :
  (forall err, snd New = Some err <->
               Dial (lit "unixgram") (lit "/run/systemd/journal/socket")
               = inr err) /\
  (fst New = None <-> snd New <> None) /\
  (reachable ok p ->
   exec op p <> Panic /\
   ((exists p', exec op p = Done tt p') \/
    (exec op p = Blocked /\ length (queued p) = 100%nat))).
Proof.
  split; [|split].
  - intros err. unfold New.
    destruct (Dial (lit "unixgram") (lit "/run/systemd/journal/socket"))
      as [s|e]; cbn [snd]; split; intros Heq; congruence.
  - unfold New.
    destruct (Dial (lit "unixgram") (lit "/run/systemd/journal/socket"))
      as [s|e]; cbn [fst snd]; split; intros Heq; congruence.
  - intros Hr. pose proof (reachable_constructed ok p Hr) as Hc.
    split; [|now apply exec_outcome].
    destruct (exec_outcome op p Hc) as [[p' Hd]|[Hb _]]; congruence.
Qed.

End Construction.

(** With the daemon down [New] returns an error and no journal; with
    the daemon up the first [AddVariable] does not panic. *)
Lemma New_only_failure_witness :
  (fst (@New Demo.env_down) = None /\
   snd (@New Demo.env_down) = Some (lit "connect: no such file or directory"))
  /\ @exec Demo.env (OpAddVariable (lit "FOO") (lit "bar")) Demo.start <> Panic.
Proof.
  split.
  - destruct (@New_only_failure Demo.env_down (fun _ => True) Demo.start
                (OpSetDebug true)) as (Herr & Hnil & _).
    split; [apply Hnil; discriminate|apply Herr; reflexivity].
  - destruct (@New_only_failure Demo.env (fun _ => True) Demo.start
                (OpAddVariable (lit "FOO") (lit "bar")))
      as (_ & _ & Hops).
    apply (Hops (start_reachable _)).
Defined.

(** ** The extra-variables buffer *)

Section ExtraVars.
Context `{Env}.

Lemma entry_done (stk : list Frame) (pre fmt : bytes) (args : list Arg)
      (p p' : Proc) :
  constructed p ->
  entry stk pre fmt args p = Done tt p' ->
  exists cp,
    queued p' = queued p
                ++ [pre ++ cp ++ extra p
                        ++ buildField (lit "MESSAGE") (Fprintf fmt args)].
Proof.
  intros Hc.
  destruct (constructed_shape p Hc) as (d & s & ev & m & q & cs & -> & Hq).
  rewrite entry_shape. cbv zeta.
  destruct (length q <? 100)%nat;
    destruct (m !! PC (callerFrame stk)) as [b|];
    try discriminate; intros [= <-].
  - exists b. reflexivity.
  - exists (encodeCodePos (callerFrame stk)). reflexivity.
Qed.

(** A leveled call that assembles a record is a call of [entry]. *)
Lemma leveled_is_entry (stk : list Frame) (fmt : bytes) (args : list Arg)
      (p p' : Proc) :
  Infof stk fmt args p = Done tt p' \/
  Errorf stk fmt args p = Done tt p' \/
  (Debug (jnl p) = true /\ Debugf stk fmt args p = Done tt p') ->
  exists pre, entry stk pre fmt args p = Done tt p'.
Proof.
  intros [Hi|[He|[Hd Hdbg]]].
  - exists (priInfo (jnl p)). exact Hi.
  - exists (priError (jnl p)). exact He.
  - exists (priDebug (jnl p)).
    unfold Debugf, GoM.bind, GoM.getJ in Hdbg. rewrite Hd in Hdbg. exact Hdbg.
Qed.

(** C7. [AddVariable] returns and appends one field to the
    extra-variables buffer: the name, a newline, the eight bytes of the
    length of the value, the value, a newline, so the buffer grows by
    the lengths of name and value and ten bytes more.  It touches
    neither the records waiting in the channel nor those already sent.
    From then on the buffer only grows at its end, whatever the process
    does, so these bytes stay in it, at the place they were written;
    and every leveled call made later returns if the channel has room,
    and the record it puts in the channel holds these bytes. *)
Theorem extraVars_append_only (ok : list Frame -> Prop) (p : Proc)
        (name value : bytes) :
  reachable ok p ->
  let field :=
    name ++ [NL]
      ++ LittleEndian.PutUint64 (Conv.uint64 (Z.of_nat (length value)))
      ++ value ++ [NL] in
  exists p1,
    AddVariable name value p = Done tt p1 /\
    extra p1 = extra p ++ field /\
    length (extra p1)
    = (length (extra p) + length name + length value + 10)%nat /\
    queued p1 = queued p /\
    sent p1 = sent p /\
    forall p2, rtc (step ok) p1 p2 ->
      (exists post, extra p2 = extra p ++ field ++ post) /\
      forall stk fmt args,
        ((length (queued p2) < 100)%nat ->
         exists p3, Infof stk fmt args p2 = Done tt p3) /\
        forall p3,
          Infof stk fmt args p2 = Done tt p3 \/
          Errorf stk fmt args p2 = Done tt p3 \/
          (Debug (jnl p2) = true /\ Debugf stk fmt args p2 = Done tt p3) ->
          exists before after,
            queued p3 = queued p2 ++ [before ++ field ++ after].
Proof.
  intros Hr field. pose proof (reachable_constructed ok p Hr) as Hc.
  assert (Hfield : buildField name value = field)
    by apply buildField_unfold.
  destruct (constructed_shape p Hc) as (d & s & ev & m & q & cs & -> & Hq).
  rewrite AddVariable_shape, Hfield. eexists. split; [reflexivity|].
  change (extra (shaped d s (ev ++ field) m q cs)) with (ev ++ field).
  change (extra (shaped d s ev m q cs)) with ev.
  split; [reflexivity|]. split.
  { rewrite length_app, <- Hfield, buildField_length. lia. }
  split; [reflexivity|]. split; [reflexivity|].
  intros p2 Hsteps.
  assert (Hc1 : constructed (shaped d s (ev ++ field) m q cs))
    by now apply shape_constructed.
  destruct (steps_extends ok _ p2 Hc1 Hsteps) as (Hc2 & _ & (post & Hpost) & _).
  assert (Hev : extra p2 = ev ++ field ++ post).
  { rewrite Hpost.
    change (extra (shaped d s (ev ++ field) m q cs)) with (ev ++ field).
    symmetry. apply app_assoc. }
  split; [exists post; exact Hev|].
  intros stk fmt args. split.
  - intros Hroom.
    destruct (entry_enqueues stk (priInfo (jnl p2)) fmt args p2 Hc2 Hroom)
      as (cp & p1 & p3 & _ & Hrun & _).
    exists p3. exact Hrun.
  - intros p3 Hcall.
    destruct (leveled_is_entry stk fmt args p2 p3 Hcall) as [pre Hentry].
    destruct (entry_done stk pre fmt args p2 p3 Hc2 Hentry) as [cp Hq3].
    exists (pre ++ cp ++ ev),
           (post ++ buildField (lit "MESSAGE") (Fprintf fmt args)).
    rewrite Hq3, Hev. rewrite <- !app_assoc. reflexivity.
Qed.

End ExtraVars.

(** The demo's [AddVariable("FOO", "bar")], made when the buffer holds
    a variable already and a record is waiting: the buffer grows by
    sixteen bytes, and the record of the next [Infof] holds them. *)
Lemma extraVars_append_only_witness :
  exists p1 p3 before after,
    AddVariable (lit "FOO") (lit "bar") DemoStates.once = Done tt p1 /\
    extra p1
    = extra DemoStates.once
        ++ lit "FOO" ++ [NL]
        ++ LittleEndian.PutUint64 (Conv.uint64 (Z.of_nat (length (lit "bar"))))
        ++ lit "bar" ++ [NL] /\
    length (extra p1) = (length (extra DemoStates.once) + 3 + 3 + 10)%nat /\
    @Infof Demo.env Demo.stack (lit "again") [] p1 = Done tt p3 /\
    queued p3
    = queued p1
        ++ [before
              ++ (lit "FOO" ++ [NL]
                    ++ LittleEndian.PutUint64
                         (Conv.uint64 (Z.of_nat (length (lit "bar"))))
                    ++ lit "bar" ++ [NL])
              ++ after].
Proof.
  destruct (@extraVars_append_only Demo.env (fun _ => True) DemoStates.once
              (lit "FOO") (lit "bar"))
    as (p1 & Hrun & Hextra & Hlen & Hq & _ & Hlater).
  - apply (@reachable_mono Demo.env (@symbolized Demo.env Demo.sym)).
    + intros stk _. exact I.
    + exact once_reachable.
  - destruct (Hlater p1 (rtc_refl _ _)) as [_ Hcalls].
    destruct (Hcalls Demo.stack (lit "again") []) as [Hreturns Hholds].
    destruct Hreturns as [p3 Hcall].
    { rewrite Hq. vm_compute. lia. }
    destruct (Hholds p3 (or_introl Hcall)) as (before & after & Hq3).
    exists p1, p3, before, after.
    split; [exact Hrun|]. split; [exact Hextra|]. split; [exact Hlen|].
    split; [exact Hcall|exact Hq3].
Defined.

(** ** The delivery channel and its writer *)

Section Delivery.
Context `{Env}.

Lemma run_ops_steps (ok : list Frame -> Prop) (ops : list Op) (p p' : Proc) :
  Forall (fun op => forall stk, op_stack op = Some stk -> ok stk) ops ->
  run_ops ops p = Some p' ->
  rtc (step ok) p p'.
Proof.
  revert p. induction ops as [|op ops IH]; intros p Hok Hrun.
  - injection Hrun as <-. constructor.
  - inversion Hok as [|? ? Hop Hrest]; subst. cbn [run_ops] in Hrun.
    destruct (exec op p) as [[] p1| |] eqn:Hex; try discriminate.
    eapply rtc_l; [|apply IH; eassumption].
    eapply step_op; eassumption.
Qed.

Lemma leveled_blocks (stk : list Frame) (fmt : bytes) (args : list Arg)
      (p : Proc) :
  constructed p ->
  length (queued p) = 100%nat ->
  Infof stk fmt args p = Blocked /\
  Errorf stk fmt args p = Blocked /\
  Debugf stk fmt args (upd (set_Debug true) p) = Blocked.
Proof.
  intros Hc Hfull. split; [|split].
  - apply (entry_blocks stk (priInfo (jnl p)) fmt args p Hc Hfull).
  - apply (entry_blocks stk (priError (jnl p)) fmt args p Hc Hfull).
  - destruct (constructed_shape p Hc) as (d & s & ev & m & q & cs & -> & Hq).
    apply (entry_blocks stk _ fmt args (shaped true s ev m q cs)).
    + now apply shape_constructed.
    + exact Hfull.
Qed.

Lemma writer_takes_head (p : Proc) (msg : bytes) (rest : list bytes) :
  constructed p ->
  queued p = msg :: rest ->
  exists p', writer p = Done tt p' /\ constructed p' /\
             sent p' = sent p ++ [msg] /\ queued p' = rest.
Proof.
  intros Hc Hq.
  destruct (constructed_shape p Hc) as (d & s & ev & m & q & cs & -> & Hlen).
  cbn in Hq. subst q. rewrite writer_shape. eexists.
  split; [reflexivity|]. split; [|split; reflexivity].
  apply shape_constructed. cbn in Hlen. lia.
Qed.

(** C9. The channel of a journal has capacity 100 and never holds
    more, and one [writer] goroutine serves it.  When it holds 100
    records a leveled call is suspended; the writer can take a round,
    which hands the oldest record to the socket and leaves 99 waiting;
    after that round the call returns, with its record behind those 99.
    No step of the process drops or reorders anything: the records
    sent, followed by the records waiting, form a sequence that only
    grows at its end, and the writer always takes the head of the
    channel. *)
Theorem queue_backpressure (ok : list Frame -> Prop) (p p1 p2 : Proc)
        (stk : list Frame) (fmt : bytes) (args : list Arg) :
  reachable ok p ->
  length (queued p) = 100%nat ->
  reachable ok p1 ->
  rtc (step ok) p1 p2 ->
  (writers p1 = 1%nat /\
   exists c, writes (jnl p1) = Some c /\ cap c = 100%nat
             /\ (length (buf c) <= 100)%nat) /\
  (Infof stk fmt args p = Blocked /\
   Errorf stk fmt args p = Blocked /\
   Debugf stk fmt args (upd (set_Debug true) p) = Blocked) /\
  (exists msg rest p',
      queued p = msg :: rest /\
      writer p = Done tt p' /\
      sent p' = sent p ++ [msg] /\
      queued p' = rest /\
      length rest = 99%nat /\
      exists p'' r,
        Infof stk fmt args p' = Done tt p'' /\
        queued p'' = rest ++ [r] /\
        sent p'' = sent p ++ [msg]) /\
  (exists new, sent p2 ++ queued p2 = (sent p1 ++ queued p1) ++ new) /\
  (forall msg rest, queued p1 = msg :: rest ->
     exists p', writer p1 = Done tt p' /\ sent p' = sent p1 ++ [msg]
                /\ queued p' = rest).
Proof.
  intros Hr Hfull Hr1 Hsteps.
  pose proof (reachable_constructed ok p Hr) as Hc.
  pose proof (reachable_constructed ok p1 Hr1) as Hc1.
  split; [|split; [|split; [|split]]].
  - split; [apply (c_writers p1 Hc1)|apply (c_writes p1 Hc1)].
  - now apply leveled_blocks.
  - destruct (queued p) as [|msg rest] eqn:Hq; [discriminate Hfull|].
    destruct (writer_takes_head p msg rest Hc Hq)
      as (p' & Hw & Hc' & Hs' & Hq').
    exists msg, rest, p'. cbn [length] in Hfull.
    split; [reflexivity|]. split; [exact Hw|]. split; [exact Hs'|].
    split; [exact Hq'|]. split; [lia|].
    destruct (constructed_shape p' Hc') as (d & s & ev & m & q & cs & -> & _).
    cbn in Hq'. subst q.
    rewrite Infof_shape, entry_shape. cbv zeta.
    destruct (Nat.ltb_spec (length rest) 100) as [_|Hge]; [|lia].
    destruct (m !! PC (callerFrame stk)) as [b|];
      eexists _, _; (split; [reflexivity|]); split;
        [reflexivity|exact Hs'|reflexivity|exact Hs'].
  - destruct (steps_extends ok p1 p2 Hc1 Hsteps) as (_ & _ & _ & Hhist).
    exact Hhist.
  - intros msg rest Hq.
    destruct (writer_takes_head p1 msg rest Hc1 Hq) as (p' & Hw & _ & Hs & Hq').
    eauto.
Qed.

End Delivery.

Lemma full_reachable : @reachable Demo.env (fun _ => True) Demo.full.
Proof.
  exists Demo.start. split; [reflexivity|].
  apply (@run_ops_steps Demo.env (fun _ => True) Demo.hundred).
  - apply Forall_replicate. intros stk _. exact I.
  - vm_compute. reflexivity.
Qed.

(** With a hundred records waiting the next [Infof] is suspended; one
    round of the writer lets it through. *)
Lemma queue_backpressure_witness :
  @Infof Demo.env Demo.stack (lit "one more") [] Demo.full = Blocked /\
  exists msg rest p' p'' r,
    queued Demo.full = msg :: rest /\
    writer Demo.full = Done tt p' /\
    sent p' = [msg] /\
    @Infof Demo.env Demo.stack (lit "one more") [] p' = Done tt p'' /\
    queued p'' = rest ++ [r].
Proof.
  destruct (@queue_backpressure Demo.env (fun _ => True)
              Demo.full Demo.start Demo.full
              Demo.stack (lit "one more") [])
    as (_ & (Hblock & _) & (msg & rest & p' & Hq & Hw & Hs & _ & _ & p''
                            & r & Hrun & Hq'' & _) & _).
  - exact full_reachable.
  - vm_compute. reflexivity.
  - apply start_reachable.
  - destruct full_reachable as (p0 & Hnew & Hsteps).
    injection Hnew as <-. exact Hsteps.
  - split; [exact Hblock|].
    exists msg, rest, p', p'', r. auto.
Defined.

(** * Further properties of the code *)

(** ** Buffers and capacities *)

Section Capacities.
Context `{Env}.
Import Conv LittleEndian Wire.

(** X1. The capacity [buildField] asks for is exactly the length of
    the field it builds, and [writeField] makes any buffer longer by
    that much: the name, the value and ten bytes of framing. *)
Theorem buildField_fills_its_capacity (b name message : bytes) :
  Z.of_nat (length (buildField name message)) = buildField_cap name message /\
  Z.of_nat (length (writeField b name message))
  = Z.of_nat (length b) + buildField_cap name message.
Proof.
  unfold buildField_cap. rewrite writeField_app, length_app, buildField_length.
  lia.
Qed.

(** X2. The record [entry] assembles is three bytes shorter than the
    capacity [reqLen] it makes the buffer with, whatever the preamble,
    the caller location, the extra variables and the message are: the
    buffer is never grown. *)
Theorem entry_record_fits (ok : list Frame -> Prop) (p : Proc)
        (stk : list Frame) (pre fmt : bytes) (args : list Arg) :
  reachable ok p ->
  (length (queued p) < 100)%nat ->
  exists cp p1 p' r,
    getCodePos stk p = Done cp p1 /\
    entry stk pre fmt args p = Done tt p' /\
    queued p' = queued p ++ [r] /\
    Z.of_nat (length r) + 3 = reqLen pre cp (extra p) (Fprintf fmt args).
Proof.
  intros Hr Hroom. pose proof (reachable_constructed ok p Hr) as Hc.
  destruct (entry_enqueues stk pre fmt args p Hc Hroom)
    as (cp & p1 & p' & Hcp & Hrun & Hq).
  exists cp, p1, p'. eexists. split; [exact Hcp|]. split; [exact Hrun|].
  split; [exact Hq|].
  unfold reqLen, Buffer.Len. rewrite !length_app, buildField_length.
  change (length (lit "MESSAGE")) with 7%nat. lia.
Qed.

End Capacities.

Lemma entry_record_fits_witness :
  exists cp p1 p' r,
    @getCodePos Demo.env Demo.stack Demo.start = Done cp p1 /\
    @entry Demo.env Demo.stack (lit "P") (lit "x=%d") [1] Demo.start
    = Done tt p' /\
    queued p' = [r] /\
    Z.of_nat (length r) + 3 = reqLen (lit "P") cp [] (lit "x=1").
Proof.
  destruct (@entry_record_fits Demo.env (fun _ => True) Demo.start
              Demo.stack (lit "P") (lit "x=%d") [1])
    as (cp & p1 & p' & r & Hcp & Hrun & Hq & Hlen).
  - apply start_reachable.
  - cbn. lia.
  - exists cp, p1, p', r. auto.
Defined.

(** ** Names with a newline, and whole records *)

Section Records.
Import Conv LittleEndian Wire.

Lemma read_name_first_newline (name tail : bytes) :
  In NL name ->
  exists pre post,
    name = pre ++ NL :: post /\ ~ In NL pre /\
    read_name (name ++ tail) = Some (pre, post ++ tail).
Proof.
  induction name as [|c name IH]; intros Hin; [destruct Hin|].
  cbn [app read_name]. destruct (Byte.eqb c NL) eqn:E.
  - apply Byte.byte_dec_bl in E. subst c.
    exists [], name. cbn. auto.
  - destruct Hin as [->|Hin].
    { rewrite (Byte.byte_dec_lb (eq_refl NL)) in E. discriminate. }
    destruct (IH Hin) as (pre & post & -> & Hpre & Hread).
    rewrite Hread. exists (c :: pre), post. split; [reflexivity|].
    split; [|reflexivity].
    intros [->|Hc]; [|exact (Hpre Hc)].
    rewrite (Byte.byte_dec_lb (eq_refl NL)) in E. discriminate.
Qed.

Lemma parse_field_name (bs name value rest : bytes) :
  parse_field bs = Some ((name, value), rest) ->
  exists tail, read_name bs = Some (name, tail).
Proof.
  unfold parse_field. destruct (read_name bs) as [[n r1]|]; [|discriminate].
  destruct (length r1 <? 8)%nat; [discriminate|].
  destruct (length (skipn 8 r1) <? _)%nat; [discriminate|].
  destruct (skipn _ (skipn 8 r1)) as [|c rest']; [discriminate|].
  destruct (Byte.eqb c NL); [|discriminate].
  intros [= -> _ _]. eauto.
Qed.

(** X3. [writeField] does not look at the name.  A name that holds a
    newline is written as it is, and the field no longer reads back:
    the reader takes the part before the first newline for the name,
    so it never returns the name and value that were written. *)
Theorem newline_in_name_breaks_field (name value rest : bytes) :
  In NL name ->
  (exists pre tail,
      read_name (buildField name value ++ rest) = Some (pre, tail) /\
      (length pre < length name)%nat /\ ~ In NL pre) /\
  parse_field (buildField name value ++ rest) <> Some ((name, value), rest).
Proof.
  intros Hin. rewrite buildField_split.
  destruct (read_name_first_newline name
              (NL :: PutUint64 (uint64 (Z.of_nat (length value)))
                  ++ value ++ NL :: rest) Hin)
    as (pre & post & Hname & Hpre & Hread).
  assert (Hshort : (length pre < length name)%nat).
  { rewrite Hname, length_app. cbn [length]. lia. }
  split.
  - exists pre. eexists. split; [exact Hread|]. auto.
  - intros Hparse. destruct (parse_field_name _ _ _ _ Hparse) as [tail Htail].
    rewrite Hread in Htail. injection Htail as Hpn _. subst pre. lia.
Qed.

Lemma writeFields_app (b : bytes) (fs : list (bytes * bytes)) :
  writeFields b fs = b ++ encode_fields fs.
Proof.
  revert b. induction fs as [|[name value] fs IH]; intros b.
  - cbn. now rewrite app_nil_r.
  - unfold writeFields in *. cbn [fold_left fst snd].
    rewrite IH, writeField_app. unfold encode_fields.
    cbn [map concat fst snd]. now rewrite app_assoc.
Qed.

(** X4. Any number of fields written one after the other into an empty
    buffer read back as the same fields in the same order, provided no
    name holds a newline; written into a buffer that already holds
    bytes, they come after those bytes. *)
Theorem writeFields_roundtrip (b : bytes) (fs : list (bytes * bytes)) :
  Forall readable fs ->
  parse_record (writeFields [] fs) = Some fs /\
  writeFields b fs = b ++ writeFields [] fs.
Proof.
  intros Hok. rewrite !writeFields_app. cbn [app].
  split; [now apply parse_record_encode|reflexivity].
Qed.

(** X5. The encoding is unambiguous: two sequences of fields whose
    names hold no newline are written as the same bytes only if they
    are the same sequence. *)
Theorem writeFields_injective (fs fs' : list (bytes * bytes)) :
  Forall readable fs ->
  Forall readable fs' ->
  writeFields [] fs = writeFields [] fs' ->
  fs = fs'.
Proof.
  intros Hok Hok' Heq. rewrite !writeFields_app in Heq. cbn [app] in Heq.
  pose proof (parse_record_encode fs Hok) as Hp.
  rewrite Heq, (parse_record_encode fs' Hok') in Hp. congruence.
Qed.

End Records.

Lemma newline_in_name_breaks_field_witness :
  Wire.parse_field (buildField [x41; x0a; x42] (lit "x"))
  <> Some (([x41; x0a; x42], lit "x"), []).
Proof.
  destruct (newline_in_name_breaks_field [x41; x0a; x42] (lit "x") [])
    as [_ Hne].
  - right. left. reflexivity.
  - rewrite app_nil_r in Hne. exact Hne.
Defined.

Lemma demo_fields_readable :
  Forall readable [(lit "FOO", lit "bar"); (lit "SESSION", [x0a; xff])].
Proof.
  repeat constructor; cbn; unfold NL; try (intuition discriminate).
Qed.

Lemma writeFields_roundtrip_witness :
  Wire.parse_record
    (writeFields [] [(lit "FOO", lit "bar"); (lit "SESSION", [x0a; xff])])
  = Some [(lit "FOO", lit "bar"); (lit "SESSION", [x0a; xff])].
Proof.
  destruct (writeFields_roundtrip []
              [(lit "FOO", lit "bar"); (lit "SESSION", [x0a; xff])]
              demo_fields_readable) as [Hparse _].
  exact Hparse.
Defined.

Lemma writeFields_injective_witness :
  [(lit "FOO", lit "bar"); (lit "SESSION", [x0a; xff])]
  = [(lit "FOO", lit "bar"); (lit "SESSION", [x0a; xff])].
Proof.
  apply (writeFields_injective _ _ demo_fields_readable demo_fields_readable).
  reflexivity.
Defined.

(** ** The caller-location fields *)

Section Location.
Import Conv Wire Decimal.

Lemma digit_value_digit (d : Z) :
  0 <= d < 10 -> digit_value (Strconv.digit d) = Some d.
Proof.
  intros Hd. unfold digit_value, Strconv.digit.
  rewrite Z_of_byte_of_Z, Z.mod_small by lia.
  replace (48 + d - 48) with d by lia.
  destruct (Z.leb_spec 0 d); [|lia]. destruct (Z.ltb_spec d 10); [|lia].
  reflexivity.
Qed.

Lemma digit_not_minus (d : Z) :
  0 <= d < 10 -> Byte.eqb (Strconv.digit d) x2d = false.
Proof.
  intros Hd. destruct (Byte.eqb (Strconv.digit d) x2d) eqn:E; [|reflexivity].
  apply Byte.byte_dec_bl in E. apply (f_equal Z_of_byte) in E.
  unfold Strconv.digit in E. rewrite Z_of_byte_of_Z, Z.mod_small in E by lia.
  change (Z_of_byte x2d) with 45 in E. lia.
Qed.

(** Reading the digits [formatBits] puts in front of [a] amounts to
    starting the reading of [a] from [u]. *)
Lemma read_formatBits (fuel : nat) (u : Z) (a : bytes) :
  fuel <> O ->
  0 <= u < 10 ^ Z.of_nat fuel ->
  read_digits 0 (Strconv.formatBits fuel u a) = read_digits u a.
Proof.
  revert u a. induction fuel as [|fuel IH]; intros u a Hfuel Hu;
    [congruence|].
  cbn [Strconv.formatBits]. destruct (Z.ltb_spec u 10) as [Hlt|Hge].
  - cbn [read_digits]. rewrite digit_value_digit by lia.
    f_equal; lia.
  - assert (Hpow : 10 ^ Z.of_nat (S fuel) = 10 * 10 ^ Z.of_nat fuel).
    { rewrite Nat2Z.inj_succ, Z.pow_succ_r by lia. reflexivity. }
    destruct fuel as [|fuel'].
    { cbn in Hu. lia. }
    rewrite IH.
    + cbn [read_digits].
      rewrite digit_value_digit by (apply Z.mod_pos_bound; lia).
      pose proof (Z.div_mod u 10 ltac:(lia)). f_equal; lia.
    + discriminate.
    + split; [apply Z.div_pos; lia|].
      apply Z.div_lt_upper_bound; lia.
Qed.

Lemma formatBits_head (fuel : nat) (u : Z) (a : bytes) :
  fuel <> O -> 0 <= u ->
  exists d tail, 0 <= d < 10 /\
                 Strconv.formatBits fuel u a = Strconv.digit d :: tail.
Proof.
  revert u a. induction fuel as [|fuel IH]; intros u a Hfuel Hu;
    [congruence|].
  cbn [Strconv.formatBits]. destruct (Z.ltb_spec u 10) as [Hlt|Hge].
  - exists u, a. split; [lia|reflexivity].
  - destruct fuel as [|fuel'].
    + exists (u mod 10), a. split; [apply Z.mod_pos_bound; lia|reflexivity].
    + apply IH; [discriminate|apply Z.div_pos; lia].
Qed.

Lemma int64_below_twenty_digits (u : Z) :
  0 <= u <= 2 ^ 63 -> 0 <= u < 10 ^ Z.of_nat 20.
Proof.
  intros [Hlo Hhi]. split; [exact Hlo|].
  apply Z.le_lt_trans with (2 ^ 63); [exact Hhi|reflexivity].
Qed.

Lemma read_AppendInt (i : Z) :
  - 2 ^ 63 <= i < 2 ^ 63 ->
  read_int (Strconv.AppendInt [] i) = Some i.
Proof.
  intros Hi. unfold Strconv.AppendInt. cbn [app].
  destruct (Z.ltb_spec i 0) as [Hneg|Hpos].
  - assert (Hu : 0 <= - i <= 2 ^ 63) by lia.
    destruct (formatBits_head 20 (- i) []) as (d & tail & Hd & Hhead);
      [discriminate|apply Hu|].
    pose proof (read_formatBits 20 (- i) [] ltac:(discriminate)
                  (int64_below_twenty_digits _ Hu)) as Hread.
    unfold read_int. change (Byte.eqb x2d x2d) with true. cbv iota.
    rewrite Hhead in Hread |- *. rewrite Hread.
    cbn [option_map read_digits]. rewrite Z.opp_involutive. reflexivity.
  - assert (Hu : 0 <= i <= 2 ^ 63) by lia.
    destruct (formatBits_head 20 i []) as (d & tail & Hd & Hhead);
      [discriminate|apply Hu|].
    pose proof (read_formatBits 20 i [] ltac:(discriminate)
                  (int64_below_twenty_digits _ Hu)) as Hread.
    unfold read_int. rewrite Hhead in Hread |- *.
    rewrite (digit_not_minus d Hd). exact Hread.
Qed.

(** X6. The bytes [getCodePos] builds on a cache miss read back as
    three fields: CODE_FILE with the file of the frame, CODE_LINE with
    its line, CODE_FUNC with its function, each unchanged; the value of
    CODE_LINE is the line in decimal, with a minus sign if negative. *)
Theorem encodeCodePos_reads_back (f : Frame) :
  Z.of_nat (length (File f)) < 2 ^ 64 ->
  Z.of_nat (length (Function f)) < 2 ^ 64 ->
  - 2 ^ 63 <= Line f < 2 ^ 63 ->
  exists line,
    parse_record (encodeCodePos f)
    = Some [ (lit "CODE_FILE", File f);
             (lit "CODE_LINE", line);
             (lit "CODE_FUNC", Function f) ] /\
    read_int line = Some (Line f).
Proof.
  intros Hfile Hfunc Hline. exists (Strconv.AppendInt [] (Line f)).
  split; [|now apply read_AppendInt].
  rewrite encodeCodePos_fields. apply parse_record_encode.
  destruct names_no_newline as (Hn1 & Hn2 & Hn3 & _).
  repeat constructor; cbn [fst snd]; try assumption.
  apply AppendInt_length.
Qed.

End Location.

Lemma encodeCodePos_reads_back_witness :
  exists line,
    Wire.parse_record (encodeCodePos Demo.fRunTest)
    = Some [ (lit "CODE_FILE", lit "cmd/demo/journal.go");
             (lit "CODE_LINE", line);
             (lit "CODE_FUNC", lit "main.runTest") ] /\
    Decimal.read_int line = Some 31.
Proof.
  apply (encodeCodePos_reads_back Demo.fRunTest).
  - vm_compute. reflexivity.
  - vm_compute. reflexivity.
  - change (Line Demo.fRunTest) with 31. lia.
Defined.

(** ** The cache, from any state *)

Section CacheFrame.
Context `{Env}.

Lemma getCodePos_has_map (stk : list Frame) (p : Proc) (cp : bytes) (p' : Proc) :
  getCodePos stk p = Done cp p' -> exists m, codePos (jnl p) = Some m.
Proof.
  destruct p as [[d s p7 p6 p3 ev [m|] w] n cs]; [eauto|].
  intros Hrun.
  cbv [getCodePos mapassign mapaccess GoM.bind GoM.call GoM.getJ GoM.panic
       GoM.ret GoM.updJ logged jnl codePos] in Hrun.
  discriminate Hrun.
Qed.

(** X7. Whenever [getCodePos] returns, from any state at all, the
    cache holds the returned bytes under the PC of the frame the walk
    stopped at; the bytes are those that were cached under that PC
    before, or, if there were none, the fresh encoding of the frame;
    every other cache entry, every other field of the journal and the
    writer are as before. *)
Theorem getCodePos_touches_one_entry (stk : list Frame) (p : Proc)
        (cp : bytes) (p' : Proc) :
  getCodePos stk p = Done cp p' ->
  mapaccess (codePos (jnl p')) (PC (callerFrame stk)) = Some cp /\
  (mapaccess (codePos (jnl p)) (PC (callerFrame stk)) = Some cp \/
   (mapaccess (codePos (jnl p)) (PC (callerFrame stk)) = None /\
    cp = encodeCodePos (callerFrame stk))) /\
  (forall pc, pc <> PC (callerFrame stk) ->
     mapaccess (codePos (jnl p')) pc = mapaccess (codePos (jnl p)) pc) /\
  jnl p' = set_codePos (codePos (jnl p')) (jnl p) /\
  writers p' = writers p.
Proof.
  intros Hrun. destruct (getCodePos_has_map stk p cp p' Hrun) as [m Hm].
  rewrite (getCodePos_run stk p m Hm) in Hrun.
  destruct p as [[d s p7 p6 p3 ev cm w] n cs]. cbn in Hm. subst cm.
  destruct (m !! PC (callerFrame stk)) as [b|] eqn:Hl; cbv zeta in Hrun;
    injection Hrun as <- <-; cbn.
  - rewrite Hl. auto.
  - rewrite lookup_insert_eq, Hl.
    split; [reflexivity|]. split; [auto|]. split; [|auto].
    intros pc Hne. now rewrite lookup_insert_ne by congruence.
Qed.

(** X8. The cache is keyed by the PC alone.  Two stacks whose walks
    stop at frames with the same PC get the same bytes, those of the
    one resolved first, whatever file, line and function the second
    frame has. *)
Theorem same_pc_same_location (stk1 stk2 : list Frame) (p : Proc)
        (cp : bytes) (p1 : Proc) :
  PC (callerFrame stk1) = PC (callerFrame stk2) ->
  getCodePos stk1 p = Done cp p1 ->
  getCodePos stk2 p1 = Done cp (logged CallCallers p1).
Proof.
  intros Hpc Hrun.
  destruct (getCodePos_has_map stk1 p cp p1 Hrun) as [m Hm].
  rewrite (getCodePos_run stk1 p m Hm) in Hrun.
  destruct (m !! PC (callerFrame stk1)) as [b|] eqn:Hl; cbv zeta in Hrun;
    injection Hrun as <- <-.
  - rewrite (getCodePos_run stk2 _ m) by exact Hm.
    rewrite <- Hpc, Hl. reflexivity.
  - rewrite (getCodePos_run stk2 _
               (<[PC (callerFrame stk1) := encodeCodePos (callerFrame stk1)]> m)).
    + rewrite <- Hpc, lookup_insert_eq. reflexivity.
    + cbn. reflexivity.
Qed.

(** X9. A [Journal] that [New] did not make is of no use: with every
    field but [Debug] at its zero value, [AddVariable] panics on the
    nil buffer, and [Infof], [Errorf] and, with [Debug] set, [Debugf]
    panic when [getCodePos] stores into the nil map; only [Debugf]
    with [Debug] unset returns, having done nothing. *)
Theorem literal_journal_panics (d : bool) (n : nat) (cs : list Call)
        (stk : list Frame) (fmt name value : bytes) (args : list Arg) :
  AddVariable name value (mkProc (literalJournal d) n cs) = Panic /\
  Infof stk fmt args (mkProc (literalJournal d) n cs) = Panic /\
  Errorf stk fmt args (mkProc (literalJournal d) n cs) = Panic /\
  Debugf stk fmt args (mkProc (literalJournal true) n cs) = Panic /\
  Debugf stk fmt args (mkProc (literalJournal false) n cs)
  = Done tt (mkProc (literalJournal false) n cs).
Proof.
  repeat split; reflexivity.
Qed.

End CacheFrame.

Lemma getCodePos_touches_one_entry_witness :
  exists cp p',
    @getCodePos Demo.env Demo.stack Demo.start = Done cp p' /\
    mapaccess (codePos (jnl p')) (PC Demo.fRunTest) = Some cp /\
    cp = encodeCodePos Demo.fRunTest.
Proof.
  destruct demo_resolutions as (p1 & Hfirst & _).
  destruct (@getCodePos_touches_one_entry Demo.env Demo.stack Demo.start
              _ p1 Hfirst) as (Hin & _).
  eexists _, p1. split; [exact Hfirst|]. split; [exact Hin|reflexivity].
Defined.

(** A frame that shares the PC of [runTest]'s call but names another
    place gets the location of [runTest]. *)
Lemma same_pc_same_location_witness :
  exists p1,
    @getCodePos Demo.env Demo.stack Demo.start
    = Done (encodeCodePos Demo.fRunTest) p1 /\
    @getCodePos Demo.env
      [Demo.fCallers; Demo.fGetCodePos; Demo.fEntry; Demo.fInfof;
       mkFrame (PC Demo.fRunTest) None (lit "other.func") (lit "other.go") 7]
      p1
    = Done (encodeCodePos Demo.fRunTest) (logged CallCallers p1).
Proof.
  destruct demo_resolutions as (p1 & Hfirst & _).
  exists p1. split; [exact Hfirst|].
  apply (@same_pc_same_location Demo.env Demo.stack _ Demo.start);
    [reflexivity|exact Hfirst].
Defined.

(** ** The writer, round after round *)

Section Draining.
Context `{Env}.

Lemma writer_rounds_shape (q : list bytes) d s ev m cs :
  writer_rounds (length q) (shaped d s ev m q cs)
  = Done tt (shaped d (mkConn (written s ++ q)) ev m [] cs).
Proof.
  revert s. induction q as [|msg rest IH]; intros s.
  - cbn [length writer_rounds]. rewrite app_nil_r. destruct s. reflexivity.
  - cbn [length writer_rounds]. rewrite writer_shape, IH.
    cbn [written]. rewrite <- app_assoc. reflexivity.
Qed.

(** X10. As many rounds of the writer as there are records waiting
    hand all of them to the socket, oldest first, and leave the channel
    empty; the next round waits on the empty channel.  The writer
    touches neither the extra variables, nor the cache, nor [Debug]. *)
Theorem writer_drains (ok : list Frame -> Prop) (p : Proc) :
  reachable ok p ->
  exists p',
    writer_rounds (length (queued p)) p = Done tt p' /\
    sent p' = sent p ++ queued p /\
    queued p' = [] /\
    writer p' = Blocked /\
    extra p' = extra p /\
    codePos (jnl p') = codePos (jnl p) /\
    Debug (jnl p') = Debug (jnl p).
Proof.
  intros Hr. pose proof (reachable_constructed ok p Hr) as Hc.
  destruct (constructed_shape p Hc) as (d & s & ev & m & q & cs & -> & Hq).
  change (queued (shaped d s ev m q cs)) with q.
  rewrite writer_rounds_shape. eexists. split; [reflexivity|].
  repeat split; reflexivity.
Qed.

End Draining.

Lemma writer_drains_witness :
  exists p',
    writer_rounds (length (queued Demo.full)) Demo.full = Done tt p' /\
    sent p' = sent Demo.full ++ queued Demo.full /\
    queued p' = [] /\
    writer p' = Blocked.
Proof.
  destruct (@writer_drains Demo.env (fun _ => True) Demo.full full_reachable)
    as (p' & Hrun & Hsent & Hq & Hblock & _).
  exists p'. split; [exact Hrun|].
  split; [exact Hsent|]. split; [exact Hq|exact Hblock].
Defined.

(** ** The two goroutines, statement by statement *)

Section StatementRuns.
Context `{Env}.

(** [entry] is [assemble] followed by the send. *)
Lemma entry_assemble stk pre fmt args (p : Proc) :
  entry stk pre fmt args p =
    match assemble stk pre fmt args p with
    | Done r p' => chansend r p'
    | Blocked => Blocked
    | Panic => Panic
    end.
Proof.
  unfold entry, assemble, GoM.bind.
  destruct (getCodePos stk p) as [cp p1| |]; try reflexivity.
  unfold GoM.call, GoM.getJ, GoM.ret, GoM.panic.
  destruct (extraVars (jnl (logged CallFprintf p1))); reflexivity.
Qed.

(** A call is [prepare] followed by the send of the record, if there
    is one. *)
Lemma exec_prepare (op : Op) (p : Proc) :
  exec op p =
    match prepare op p with
    | Done None p' => Done tt p'
    | Done (Some r) p' => chansend r p'
    | Blocked => Blocked
    | Panic => Panic
    end.
Proof.
  destruct op as [b|name value|stk fmt args|stk fmt args|stk fmt args];
    cbn [exec prepare].
  - reflexivity.
  - unfold GoM.bind, GoM.ret.
    destruct (AddVariable name value p) as [[] p'| |]; reflexivity.
  - unfold Debugf, GoM.bind, GoM.getJ, GoM.ret.
    destruct (negb (Debug (jnl p))); [reflexivity|].
    rewrite entry_assemble.
    destruct (assemble stk (priDebug (jnl p)) fmt args p); reflexivity.
  - unfold Infof, GoM.bind, GoM.getJ, GoM.ret. rewrite entry_assemble.
    destruct (assemble stk (priInfo (jnl p)) fmt args p); reflexivity.
  - unfold Errorf, GoM.bind, GoM.getJ, GoM.ret. rewrite entry_assemble.
    destruct (assemble stk (priError (jnl p)) fmt args p); reflexivity.
Qed.

(** A round of the writer is a receive followed by the write. *)
Lemma writer_receive_write (p : Proc) :
  writer p =
    match chanrecv p with
    | Done msg p1 =>
        match sock (jnl p1) with
        | Some c => Done tt (upd (set_sock (Some (Conn_Write c msg))) p1)
        | None => Panic
        end
    | Blocked => Blocked
    | Panic => Panic
    end.
Proof.
  unfold writer, GoM.bind, GoM.getJ, GoM.updJ, GoM.panic.
  destruct (chanrecv p) as [msg p1| |]; try reflexivity.
  destruct (sock (jnl p1)); reflexivity.
Qed.

Lemma chansend_shape r d s ev m q cs :
  chansend r (shaped d s ev m q cs) =
    if (length q <? 100)%nat then Done tt (shaped d s ev m (q ++ [r]) cs)
    else Blocked.
Proof.
  rewrite (chansend_run _ _ (mkChan 100 q)) by reflexivity.
  cbn [buf cap]. destruct (length q <? 100)%nat; reflexivity.
Qed.

Lemma chanrecv_shape d s ev m q cs :
  chanrecv (shaped d s ev m q cs) =
    match q with
    | [] => Blocked
    | msg :: rest => Done msg (shaped d s ev m rest cs)
    end.
Proof. destruct q; reflexivity. Qed.

Lemma assemble_shape stk pre fmt args d s ev m q cs :
  assemble stk pre fmt args (shaped d s ev m q cs) =
    let msg := buildField (lit "MESSAGE") (Fprintf fmt args) in
    match m !! PC (callerFrame stk) with
    | Some cp =>
        Done (pre ++ cp ++ ev ++ msg)
             (shaped d s ev m q ((cs ++ [CallCallers]) ++ [CallFprintf]))
    | None =>
        let cp := encodeCodePos (callerFrame stk) in
        Done (pre ++ cp ++ ev ++ msg)
             (shaped d s ev (<[PC (callerFrame stk) := cp]> m) q
                     (((cs ++ [CallCallers]) ++ [CallAppendInt])
                        ++ [CallFprintf]))
    end.
Proof.
  unfold assemble. unfold GoM.bind at 1. rewrite getCodePos_shape.
  destruct (m !! PC (callerFrame stk)) as [cp|]; cbv zeta;
    unfold GoM.bind, GoM.call, GoM.getJ, GoM.ret, logged;
    cbn [shaped jnl writers calls extraVars];
    rewrite writeField_app;
    unfold Buffer.Write, Buffer.NewBuffer, Buffer.Bytes; cbn [app];
    rewrite <- !app_assoc; reflexivity.
Qed.

Lemma count_snoc_same (c : Call) (l : list Call) :
  length (filter (fun x => x = c) (l ++ [c]))
  = S (length (filter (fun x => x = c) l)).
Proof.
  rewrite filter_app, length_app.
  replace (filter (fun x => x = c) [c]) with [c]
    by (destruct c; reflexivity).
  cbn [length]. lia.
Qed.

Lemma count_snoc_other (c c' : Call) (l : list Call) :
  c' <> c ->
  length (filter (fun x => x = c) (l ++ [c']))
  = length (filter (fun x => x = c) l).
Proof.
  intros Hne. rewrite filter_app, length_app.
  replace (filter (fun x => x = c) [c']) with (@nil Call)
    by (destruct c, c'; try reflexivity; congruence).
  cbn [length]. lia.
Qed.

(** What [assemble] costs: one stack walk, one formatting, and one
    encoding for each entry it adds to the cache. *)
Lemma assemble_books stk pre fmt args d s ev m q cs :
  exists r m' cs',
    assemble stk pre fmt args (shaped d s ev m q cs)
    = Done r (shaped d s ev m' q cs') /\
    length (filter (fun x => x = CallCallers) cs')
    = S (length (filter (fun x => x = CallCallers) cs)) /\
    length (filter (fun x => x = CallFprintf) cs')
    = S (length (filter (fun x => x = CallFprintf) cs)) /\
    (length (filter (fun x => x = CallAppendInt) cs') + size m
     = length (filter (fun x => x = CallAppendInt) cs) + size m')%nat /\
    (size m <= size m')%nat /\
    (length (filter (fun x => x = CallAppendInt) cs')
     <= S (length (filter (fun x => x = CallAppendInt) cs)))%nat.
Proof.
  rewrite assemble_shape. cbv zeta.
  destruct (m !! PC (callerFrame stk)) as [cp|] eqn:Hl;
    eexists _, _, _; (split; [reflexivity|]);
    repeat (rewrite count_snoc_same
            || rewrite count_snoc_other by discriminate);
    try rewrite map_size_insert_None by exact Hl;
    (split; [lia|]); (split; [lia|]); (split; [lia|]); split; lia.
Qed.

(** What a call does before its send, from a constructed state: it
    neither blocks nor panics; it leaves the socket and the channel
    alone; it has a record to send exactly when [assembling] counts
    one. *)
Lemma prepare_books (op : Op) d s ev m q cs :
  exists o d' ev' m' cs',
    prepare op (shaped d s ev m q cs) = Done o (shaped d' s ev' m' q cs') /\
    length (held o) = assembling d [op] /\
    (forall ops, assembling d (op :: ops)
                 = (length (held o) + assembling d' ops)%nat) /\
    length (filter (fun x => x = CallCallers) cs')
    = (length (filter (fun x => x = CallCallers) cs) + length (held o))%nat /\
    length (filter (fun x => x = CallFprintf) cs')
    = (length (filter (fun x => x = CallFprintf) cs) + length (held o))%nat /\
    (length (filter (fun x => x = CallAppendInt) cs') + size m
     = length (filter (fun x => x = CallAppendInt) cs) + size m')%nat /\
    (size m <= size m')%nat /\
    (length (filter (fun x => x = CallAppendInt) cs')
     <= length (filter (fun x => x = CallAppendInt) cs) + length (held o))%nat.
Proof.
  assert (Hleveled : forall stk pre fmt args,
    exists o d' ev' m' cs',
      GoM.bind (assemble stk pre fmt args) (fun r => GoM.ret (Some r))
               (shaped d s ev m q cs)
      = Done o (shaped d' s ev' m' q cs') /\
      length (held o) = 1%nat /\ d' = d /\
      length (filter (fun x => x = CallCallers) cs')
      = (length (filter (fun x => x = CallCallers) cs) + length (held o))%nat /\
      length (filter (fun x => x = CallFprintf) cs')
      = (length (filter (fun x => x = CallFprintf) cs) + length (held o))%nat /\
      (length (filter (fun x => x = CallAppendInt) cs') + size m
       = length (filter (fun x => x = CallAppendInt) cs) + size m')%nat /\
      (size m <= size m')%nat /\
      (length (filter (fun x => x = CallAppendInt) cs')
       <= length (filter (fun x => x = CallAppendInt) cs) + length (held o))%nat).
  { intros stk pre fmt args.
    destruct (assemble_books stk pre fmt args d s ev m q cs)
      as (r & m' & cs' & Hrun & Hw & Hf & Ha & Hm & Hle).
    exists (Some r), d, ev, m', cs'. unfold GoM.bind. rewrite Hrun.
    cbn [held length].
    split; [reflexivity|]. split; [reflexivity|]. split; [reflexivity|].
    (split; [lia|]); (split; [lia|]); (split; [lia|]); split; lia. }
  destruct op as [b|name value|stk fmt args|stk fmt args|stk fmt args];
    cbn [prepare assembling].
  - exists None, b, ev, m, cs. cbn [held length].
    split; [reflexivity|]. split; [reflexivity|]. split; [reflexivity|].
    (split; [lia|]); (split; [lia|]); (split; [lia|]); split; lia.
  - exists None, d, (ev ++ buildField name value), m, cs.
    unfold GoM.bind. rewrite AddVariable_shape. cbn [held length].
    split; [reflexivity|]. split; [reflexivity|]. split; [reflexivity|].
    (split; [lia|]); (split; [lia|]); (split; [lia|]); split; lia.
  - unfold GoM.bind at 1, GoM.getJ. cbn [shaped jnl Debug priDebug].
    destruct d; cbn [negb].
    + destruct (Hleveled stk (buildField (lit "PRIORITY") (lit "7")) fmt args)
        as (o & d' & ev' & m' & cs' & Hrun & Ho & -> & Hrest).
      exists o, true, ev', m', cs'. split; [exact Hrun|].
      split; [rewrite Ho; reflexivity|]. split; [|exact Hrest].
      intros ops. rewrite Ho. reflexivity.
    + exists None, false, ev, m, cs. cbn [held length].
      split; [reflexivity|]. split; [reflexivity|]. split; [reflexivity|].
      (split; [lia|]); (split; [lia|]); (split; [lia|]); split; lia.
  - unfold GoM.bind at 1, GoM.getJ. cbn [shaped jnl priInfo].
    destruct (Hleveled stk (buildField (lit "PRIORITY") (lit "6")) fmt args)
      as (o & d' & ev' & m' & cs' & Hrun & Ho & -> & Hrest).
    exists o, d, ev', m', cs'. split; [exact Hrun|].
    split; [rewrite Ho; reflexivity|]. split; [|exact Hrest].
    intros ops. rewrite Ho. reflexivity.
  - unfold GoM.bind at 1, GoM.getJ. cbn [shaped jnl priError].
    destruct (Hleveled stk (buildField (lit "PRIORITY") (lit "3")) fmt args)
      as (o & d' & ev' & m' & cs' & Hrun & Ho & -> & Hrest).
    exists o, d, ev', m', cs'. split; [exact Hrun|].
    split; [rewrite Ho; reflexivity|]. split; [|exact Hrest].
    intros ops. rewrite Ho. reflexivity.
Qed.

(** Calls made one after the other, the writer standing still, as a
    run of statements. *)
Lemma run_ops_ticks (ops rest : list Op) (p p' : Proc) (h : option bytes) :
  run_ops ops p = Some p' ->
  rtc tick (ops ++ rest, mkSys p None h) (rest, mkSys p' None h).
Proof.
  revert p. induction ops as [|op ops IH]; intros p Hrun.
  - injection Hrun as <-. constructor.
  - cbn [run_ops] in Hrun. rewrite exec_prepare in Hrun.
    destruct (prepare op p) as [[r|] p1| |] eqn:Hp; try discriminate.
    + destruct (chansend r p1) as [[] p2| |] eqn:Hs; try discriminate.
      eapply rtc_l; [apply (tick_assemble op _ p p1 r h Hp)|].
      eapply rtc_l; [apply (tick_send _ p1 p2 r h Hs)|].
      apply IH. exact Hrun.
    + eapply rtc_l; [apply (tick_call op _ p p1 h Hp)|].
      apply IH. exact Hrun.
Qed.

(** The same, with one receive of the writer between two groups of
    calls. *)
Lemma ticks_with_receive (ops1 ops2 : list Op) (p p1 p2 p3 : Proc)
      (msg : bytes) :
  run_ops ops1 p = Some p1 ->
  (0 < writers p1)%nat ->
  chanrecv p1 = Done msg p2 ->
  run_ops ops2 p2 = Some p3 ->
  rtc tick (ops1 ++ ops2, mkSys p None None) ([], mkSys p3 None (Some msg)).
Proof.
  intros H1 Hw Hr H2.
  eapply rtc_trans; [apply (run_ops_ticks ops1 ops2 p p1 None H1)|].
  eapply rtc_l; [apply (tick_receive ops2 p1 p2 None msg Hw Hr)|].
  rewrite <- (app_nil_r ops2) at 1.
  apply (run_ops_ticks ops2 [] p2 p3 (Some msg) H2).
Qed.

(** The books of the two goroutines: [k] datagrams were on the
    connection at the start. *)
Let books (k : nat) (s : Sys) : Prop :=
  countCall CallCallers (proc s) = countCall CallFprintf (proc s) /\
  length (records s) = (k + countCall CallFprintf (proc s))%nat /\
  (countCall CallAppendInt (proc s) <= countCall CallCallers (proc s))%nat /\
  exists m, codePos (jnl (proc s)) = Some m
            /\ size m = countCall CallAppendInt (proc s).

Lemma sent_shaped d s ev m q cs : sent (shaped d s ev m q cs) = written s.
Proof. reflexivity. Qed.

Lemma queued_shaped d s ev m q cs : queued (shaped d s ev m q cs) = q.
Proof. reflexivity. Qed.

(** One step keeps the state constructed, keeps the sum of the records
    there are and the records still to be assembled, and keeps the
    books. *)
Lemma tick_keeps (k : nat) (ops ops' : list Op) (s s' : Sys) :
  constructed (proc s) ->
  tick (ops, s) (ops', s') ->
  constructed (proc s') /\
  (length (records s') + assembling (Debug (jnl (proc s'))) ops'
   = length (records s) + assembling (Debug (jnl (proc s))) ops)%nat /\
  (books k s -> books k s').
Proof.
  intros Hc Ht.
  inversion Ht as [op rest p p' h Hp|op rest p p' r h Hp|rest p p' r h Hs
                   |rest p p' a msg Hw Hr|rest p a msg c Hsock]; subst;
    cbn [proc] in Hc;
    destruct (constructed_shape p Hc) as (d & s0 & ev & m & q & cs & -> & Hq).
  - destruct (prepare_books op d s0 ev m q cs)
      as (o & d' & ev' & m' & cs' & Hrun & Ho & Hsplit & Hcw & Hcf & Hca
          & Hm & Hle).
    rewrite Hrun in Hp. injection Hp as ? ?; subst. cbn [held length] in *.
    unfold books, records, countCall. cbn [proc assembled received].
    rewrite !sent_shaped, !queued_shaped. cbn [shaped jnl calls codePos Debug].
    split; [now apply shape_constructed|]. split.
    + rewrite Hsplit. lia.
    + intros (Hwalk & Hrec & Hmiss & m0 & [= <-] & Hsize).
      split; [lia|]. split; [lia|]. split; [lia|].
      exists m'. split; [reflexivity|lia].
  - destruct (prepare_books op d s0 ev m q cs)
      as (o & d' & ev' & m' & cs' & Hrun & Ho & Hsplit & Hcw & Hcf & Hca
          & Hm & Hle).
    rewrite Hrun in Hp. injection Hp as ? ?; subst. cbn [held length] in *.
    unfold books, records, countCall. cbn [proc assembled received].
    rewrite !sent_shaped, !queued_shaped. cbn [shaped jnl calls codePos Debug].
    rewrite !length_app. cbn [held length].
    split; [now apply shape_constructed|]. split.
    + rewrite Hsplit. lia.
    + intros (Hwalk & Hrec & Hmiss & m0 & [= <-] & Hsize).
      split; [lia|]. split; [lia|]. split; [lia|].
      exists m'. split; [reflexivity|lia].
  - rewrite chansend_shape in Hs.
    destruct (Nat.ltb_spec (length q) 100) as [Hlt|Hge]; [|discriminate].
    injection Hs as <-.
    unfold books, records, countCall. cbn [proc assembled received].
    rewrite !sent_shaped, !queued_shaped. cbn [shaped jnl calls codePos Debug].
    rewrite !length_app. cbn [held length]. rewrite ?length_app. cbn [length].
    split; [apply shape_constructed; rewrite length_app; cbn [length]; lia|].
    split; [lia|].
    intros (Hwalk & Hrec & Hmiss & Hmap).
    split; [exact Hwalk|]. split; [lia|]. split; [exact Hmiss|exact Hmap].
  - rewrite chanrecv_shape in Hr. destruct q as [|msg' rest']; [discriminate|].
    injection Hr as <- <-. cbn [length] in Hq.
    unfold books, records, countCall. cbn [proc assembled received].
    rewrite !sent_shaped, !queued_shaped. cbn [shaped jnl calls codePos Debug].
    rewrite !length_app. cbn [held length]. rewrite ?length_app. cbn [length].
    split; [apply shape_constructed; lia|].
    split; [lia|].
    intros (Hwalk & Hrec & Hmiss & Hmap).
    split; [exact Hwalk|]. split; [lia|]. split; [exact Hmiss|exact Hmap].
  - cbn [shaped jnl sock] in Hsock. injection Hsock as <-.
    change (upd (set_sock (Some (Conn_Write s0 msg))) (shaped d s0 ev m q cs))
      with (shaped d (mkConn (written s0 ++ [msg])) ev m q cs).
    unfold books, records, countCall. cbn [proc assembled received].
    rewrite !sent_shaped, !queued_shaped. cbn [shaped jnl calls codePos Debug].
    cbn [written].
    rewrite !length_app. cbn [held length]. rewrite ?length_app. cbn [length].
    split; [now apply shape_constructed|].
    split; [lia|].
    intros (Hwalk & Hrec & Hmiss & Hmap).
    split; [exact Hwalk|]. split; [lia|]. split; [exact Hmiss|exact Hmap].
Qed.

Lemma ticks_keep (k : nat) (c c' : list Op * Sys) :
  constructed (proc (snd c)) ->
  rtc tick c c' ->
  constructed (proc (snd c')) /\
  (length (records (snd c'))
   + assembling (Debug (jnl (proc (snd c')))) (fst c')
   = length (records (snd c))
     + assembling (Debug (jnl (proc (snd c)))) (fst c))%nat /\
  (books k (snd c) -> books k (snd c')).
Proof.
  intros Hc Hsteps. induction Hsteps as [c|c c1 c2 Ht _ IH].
  - split; [exact Hc|]. split; [reflexivity|auto].
  - destruct c as [ops s], c1 as [ops1 s1].
    destruct (tick_keeps k ops ops1 s s1 Hc Ht) as (Hc1 & Hm1 & Hb1).
    destruct (IH Hc1) as (Hc2 & Hm2 & Hb2).
    split; [exact Hc2|]. split; [|auto].
    cbn [fst snd] in *. lia.
Qed.

(** X11. One goroutine logs and the writer serves the channel.
    Whenever the logging goroutine is between two calls or at the send
    of a record it has assembled (waiting for room or not), and
    wherever the writer is in its loop, the calls of [fmt.Fprintf]
    made since [New] are as many as the calls of [runtime.Callers],
    and as many as the records there are: handed to the socket,
    received by the writer and not written yet, waiting in the
    channel, or assembled and not sent yet.  So each record cost one
    stack walk and one formatting, and no walk or formatting was done
    for nothing.  The cache has one entry for each encoding done with
    [strconv.AppendInt], so never more entries than stack walks. *)
Theorem work_is_accounted_for (ops ops' : list Op) (p0 : Proc) (s : Sys) :
  fst New = Some p0 ->
  rtc tick (ops, mkSys p0 None None) (ops', s) ->
  countCall CallCallers (proc s) = countCall CallFprintf (proc s) /\
  length (sent (proc s) ++ held (received s)
            ++ queued (proc s) ++ held (assembled s))
  = (length (sent p0) + countCall CallFprintf (proc s))%nat /\
  (countCall CallAppendInt (proc s) <= countCall CallCallers (proc s))%nat /\
  exists m, codePos (jnl (proc s)) = Some m
            /\ size m = countCall CallAppendInt (proc s).
Proof.
  intros Hnew Hsteps.
  destruct (New_constructed (fun _ => zeroFrame) p0 Hnew) as [Hc0 _].
  assert (Hb0 : books (length (sent p0)) (mkSys p0 None None)).
  { destruct (New_shape p0 Hnew) as [s0 ->].
    unfold books, records, countCall. cbn. rewrite app_nil_r.
    split; [reflexivity|]. split; [lia|]. split; [lia|].
    exists ∅. split; [reflexivity|apply map_size_empty]. }
  destruct (ticks_keep (length (sent p0)) (ops, mkSys p0 None None) (ops', s)
              Hc0 Hsteps) as (_ & _ & Hb).
  apply (Hb Hb0).
Qed.

(** X12. One goroutine makes the calls [ops] while the writer serves
    the channel, each statement by statement and in any interleaving.
    Once the calls have returned, the records handed to the socket,
    in the hands of the writer or waiting in the channel have grown by
    exactly one for each [Infof], each [Errorf] and each [Debugf] made
    while [Debug] was set, and by none for anything else: no call
    enqueues twice, none is lost. *)
Theorem one_record_per_call (ok : list Frame -> Prop) (ops : list Op)
        (p : Proc) (s' : Sys) :
  reachable ok p ->
  rtc tick (ops, mkSys p None None) ([], s') ->
  assembled s' = None ->
  (length (sent (proc s')) + length (held (received s'))
   + length (queued (proc s'))
   = length (sent p) + length (queued p) + assembling (Debug (jnl p)) ops)%nat.
Proof.
  intros Hr Hsteps Hnone.
  pose proof (reachable_constructed ok p Hr) as Hc.
  destruct (ticks_keep 0 (ops, mkSys p None None) ([], s') Hc Hsteps)
    as (_ & Hm & _).
  cbn [fst snd proc assembling] in Hm. unfold records in Hm.
  rewrite Hnone in Hm. cbn [proc assembled received held] in Hm.
  rewrite !length_app in Hm. cbn [length] in Hm. lia.
Qed.

Lemma run_ops_run (ops : list Op) (p p' : Proc) :
  run_ops ops p = Some p' -> run ops p p'.
Proof.
  revert p. induction ops as [|op ops IH]; intros p Hrun.
  - injection Hrun as <-. constructor.
  - cbn [run_ops] in Hrun.
    destruct (exec op p) as [[] p1| |] eqn:Hex; try discriminate.
    eapply run_call; [exact Hex|]. now apply IH.
Qed.

End StatementRuns.

(** Two calls of [Infof]: the first record is in the hands of the
    writer, the second assembled and not sent yet, and the books are in
    order. *)
Lemma work_is_accounted_for_witness :
  exists s,
    rtc (@tick Demo.env)
        ([ @OpInfof Demo.env Demo.stack (lit "a") [];
           @OpInfof Demo.env Demo.stack (lit "b") [] ],
         mkSys Demo.start None None)
        ([], s) /\
    is_Some (assembled s) /\ is_Some (received s) /\
    sent (proc s) = [] /\ queued (proc s) = [] /\
    (countCall CallCallers (proc s) = countCall CallFprintf (proc s) /\
     length (sent (proc s) ++ held (received s)
               ++ queued (proc s) ++ held (assembled s))
     = (length (sent Demo.start) + countCall CallFprintf (proc s))%nat /\
     (countCall CallAppendInt (proc s) <= countCall CallCallers (proc s))%nat /\
     exists m, codePos (jnl (proc s)) = Some m
               /\ size m = countCall CallAppendInt (proc s)).
Proof.
  assert (Hpath : exists s,
    rtc (@tick Demo.env)
        ([ @OpInfof Demo.env Demo.stack (lit "a") [];
           @OpInfof Demo.env Demo.stack (lit "b") [] ],
         mkSys Demo.start None None)
        ([], s) /\
    is_Some (assembled s) /\ is_Some (received s) /\
    sent (proc s) = [] /\ queued (proc s) = []).
  { eexists. split.
    - eapply rtc_l; [eapply tick_assemble; vm_compute; reflexivity|].
      eapply rtc_l; [eapply tick_send; vm_compute; reflexivity|].
      eapply rtc_l;
        [eapply tick_receive; [vm_compute; lia|vm_compute; reflexivity]|].
      eapply rtc_l; [eapply tick_assemble; vm_compute; reflexivity|].
      apply rtc_refl.
    - cbn [assembled received proc].
      split; [eexists; reflexivity|]. split; [eexists; reflexivity|].
      split; reflexivity. }
  destruct Hpath as (s & Hpath & Ha & Hr & Hs & Hq).
  exists s. split; [exact Hpath|]. split; [exact Ha|]. split; [exact Hr|].
  split; [exact Hs|]. split; [exact Hq|].
  apply (@work_is_accounted_for Demo.env _ _ Demo.start s eq_refl Hpath).
Defined.

(** A [Debugf] with [Debug] unset, then [Debug] set, a [Debugf] and an
    [Infof]: two records, of which the writer has received one and
    written none when the calls have returned. *)
Lemma one_record_per_call_witness :
  exists s',
    rtc (@tick Demo.env)
        ([ @OpDebugf Demo.env Demo.stack_debug (lit "a") [];
           @OpSetDebug Demo.env true;
           @OpDebugf Demo.env Demo.stack_debug (lit "b") [];
           @OpInfof Demo.env Demo.stack (lit "c") [] ],
         mkSys Demo.start None None)
        ([], s') /\
    assembled s' = None /\
    sent (proc s') = [] /\
    (length (sent (proc s')) + length (held (received s'))
     + length (queued (proc s')) = 2)%nat.
Proof.
  assert (Hpath : exists s',
    rtc (@tick Demo.env)
        ([ @OpDebugf Demo.env Demo.stack_debug (lit "a") [];
           @OpSetDebug Demo.env true;
           @OpDebugf Demo.env Demo.stack_debug (lit "b") [];
           @OpInfof Demo.env Demo.stack (lit "c") [] ],
         mkSys Demo.start None None)
        ([], s') /\
    assembled s' = None /\ sent (proc s') = []).
  { eexists. split.
    - eapply (@ticks_with_receive Demo.env
               [ @OpDebugf Demo.env Demo.stack_debug (lit "a") [];
                 @OpSetDebug Demo.env true;
                 @OpDebugf Demo.env Demo.stack_debug (lit "b") [] ]
               [ @OpInfof Demo.env Demo.stack (lit "c") [] ]).
      + vm_compute. reflexivity.
      + vm_compute. lia.
      + vm_compute. reflexivity.
      + vm_compute. reflexivity.
    - split; reflexivity. }
  destruct Hpath as (s' & Hpath & Ha & Hs).
  exists s'. split; [exact Hpath|]. split; [exact Ha|]. split; [exact Hs|].
  apply (@one_record_per_call Demo.env (fun _ => True) _ Demo.start s'
           (start_reachable _) Hpath Ha).
Defined.

(** ** The demo program *)

Section DemoProgram.
Context `{Env}.

(** What one returning call does to the number of records and to
    [Debug]. *)
Lemma exec_counts (op : Op) (p p' : Proc) :
  constructed p ->
  exec op p = Done tt p' ->
  constructed p' /\
  sent p' = sent p /\
  length (queued p') = (length (queued p) + assembling (Debug (jnl p)) [op])%nat /\
  forall ops, assembling (Debug (jnl p)) (op :: ops)
              = (assembling (Debug (jnl p)) [op]
                 + assembling (Debug (jnl p')) ops)%nat.
Proof.
  intros Hc Hex. pose proof (exec_extends op p p' Hc Hex) as (Hc' & _).
  split; [exact Hc'|].
  destruct (constructed_shape p Hc) as (d & s & ev & m & q & cs & -> & Hq).
  assert (Hentry : forall stk pre fmt args,
             entry stk pre fmt args (shaped d s ev m q cs) = Done tt p' ->
             sent p' = written s /\ length (queued p') = S (length q)
             /\ Debug (jnl p') = d).
  { intros stk pre fmt args. rewrite entry_shape. cbv zeta.
    destruct (length q <? 100)%nat;
      destruct (m !! PC (callerFrame stk)); try discriminate;
      intros [= <-]; cbn; rewrite length_app; cbn; (split; [reflexivity|]);
      split; try reflexivity; lia. }
  change (sent (shaped d s ev m q cs)) with (written s).
  change (queued (shaped d s ev m q cs)) with q.
  change (Debug (jnl (shaped d s ev m q cs))) with d.
  destruct op as [b|name value|stk fmt args|stk fmt args|stk fmt args];
    cbn [exec] in Hex; cbn [assembling].
  - injection Hex as <-. cbn. repeat split; lia.
  - rewrite AddVariable_shape in Hex. injection Hex as <-. cbn.
    repeat split; lia.
  - rewrite Debugf_shape in Hex. destruct d.
    + destruct (Hentry _ _ _ _ Hex) as (Hs & Hl & Hd).
      rewrite Hs, Hl, Hd. repeat split; lia.
    + injection Hex as <-. cbn. repeat split; lia.
  - rewrite Infof_shape in Hex. destruct (Hentry _ _ _ _ Hex) as (Hs & Hl & Hd).
    rewrite Hs, Hl, Hd. repeat split; lia.
  - rewrite Errorf_shape in Hex. destruct (Hentry _ _ _ _ Hex) as (Hs & Hl & Hd).
    rewrite Hs, Hl, Hd. repeat split; lia.
Qed.

Lemma exec_room (op : Op) (p : Proc) :
  constructed p ->
  (length (queued p) + assembling (Debug (jnl p)) [op] <= 100)%nat ->
  exists p', exec op p = Done tt p'.
Proof.
  intros Hc Hroom.
  destruct (constructed_shape p Hc) as (d & s & ev & m & q & cs & -> & Hq).
  change (queued (shaped d s ev m q cs)) with q in Hroom.
  change (Debug (jnl (shaped d s ev m q cs))) with d in Hroom.
  assert (Hentry : forall stk pre fmt args,
             (length q < 100)%nat ->
             exists p', entry stk pre fmt args (shaped d s ev m q cs)
                        = Done tt p').
  { intros stk pre fmt args Hlt.
    destruct (entry_enqueues stk pre fmt args (shaped d s ev m q cs) Hc Hlt)
      as (cp & p1 & p' & _ & Hrun & _). eauto. }
  destruct op as [b|name value|stk fmt args|stk fmt args|stk fmt args];
    cbn [exec]; cbn [assembling] in Hroom.
  - eexists. reflexivity.
  - rewrite AddVariable_shape. eexists. reflexivity.
  - rewrite Debugf_shape. destruct d; [apply Hentry; lia|].
    eexists. reflexivity.
  - rewrite Infof_shape. apply Hentry. lia.
  - rewrite Errorf_shape. apply Hentry. lia.
Qed.

(** Calls made with no round of the writer in between all return as
    long as the channel has room for the records they assemble. *)
Lemma run_ops_room (ops : list Op) (p : Proc) :
  constructed p ->
  (length (queued p) + assembling (Debug (jnl p)) ops <= 100)%nat ->
  exists p', run_ops ops p = Some p' /\ constructed p' /\
             sent p' = sent p /\
             length (queued p')
             = (length (queued p) + assembling (Debug (jnl p)) ops)%nat.
Proof.
  revert p. induction ops as [|op ops IH]; intros p Hc Hroom.
  - exists p. cbn [run_ops assembling].
    split; [reflexivity|]. split; [exact Hc|]. split; [reflexivity|lia].
  - assert (Hone : (length (queued p) + assembling (Debug (jnl p)) [op]
                    <= 100)%nat).
    { destruct op; cbn [assembling] in *; try destruct (Debug (jnl p)); lia. }
    destruct (exec_room op p Hc Hone) as [p1 Hex].
    destruct (exec_counts op p p1 Hc Hex) as (Hc1 & Hs & Hl & Hsplit).
    rewrite (Hsplit ops) in Hroom |- *.
    destruct (IH p1 Hc1) as (p' & Hrun & Hc' & Hs' & Hl'); [lia|].
    exists p'. cbn [run_ops]. rewrite Hex.
    split; [exact Hrun|]. split; [exact Hc'|].
    split; [congruence|lia].
Qed.

Lemma run_ops_app (ops ops' : list Op) (p : Proc) :
  run_ops (ops ++ ops') p =
    match run_ops ops p with
    | Some p1 => run_ops ops' p1
    | None => None
    end.
Proof.
  revert p. induction ops as [|op ops IH]; intros p; [reflexivity|].
  cbn [app run_ops]. destruct (exec op p) as [[] p1| |]; auto.
Qed.

(** X13. [main] of the demo logs 101 records, one more than the channel
    holds.  If the writer does nothing while [main] and [runTest] make
    their calls, the first 101 calls return, with 100 records waiting
    and none sent, and the last [Infof] of [runTest] is suspended.
    With the two goroutines running statement by statement: in any run
    in which all the calls have returned, the records handed to the
    socket, in the hands of the writer and waiting in the channel
    number 101, and the writer has received at least one of them.  It
    need not have written any: there is such a run at whose end no
    record has been handed to the socket, one is in the hands of the
    writer and 100 are waiting. *)
Theorem demo_needs_the_writer (box : Z -> Arg) (stk_main stk_run : list Frame)
        (p0 : Proc) :
  fst New = Some p0 ->
  run_ops (main box stk_main stk_run) p0 = None /\
  (exists p, run_ops (removelast (main box stk_main stk_run)) p0 = Some p /\
             length (queued p) = 100%nat /\ sent p = sent p0 /\
             Infof stk_run (lit "log entry #%d") [box 99] p = Blocked) /\
  (forall s,
      rtc tick (main box stk_main stk_run, mkSys p0 None None) ([], s) ->
      assembled s = None ->
      (length (sent (proc s)) + length (held (received s))
       + length (queued (proc s)) = length (sent p0) + 101)%nat /\
      (length (sent p0)
       < length (sent (proc s)) + length (held (received s)))%nat) /\
  (exists s,
      rtc tick (main box stk_main stk_run, mkSys p0 None None) ([], s) /\
      assembled s = None /\
      sent (proc s) = sent p0 /\
      is_Some (received s) /\
      length (queued (proc s)) = 100%nat).
Proof.
  intros Hnew.
  destruct (New_constructed (fun _ => zeroFrame) p0 Hnew) as [Hc0 _].
  assert (Hd0 : Debug (jnl p0) = false /\ queued p0 = []).
  { destruct (New_shape p0 Hnew) as [s ->]. split; reflexivity. }
  destruct Hd0 as [Hd0 Hq0].
  assert (Hsplit : main box stk_main stk_run
                   = removelast (main box stk_main stk_run)
                       ++ [OpInfof stk_run (lit "log entry #%d") [box 99]])
    by reflexivity.
  assert (Hcount : assembling false (removelast (main box stk_main stk_run))
                   = 100%nat) by reflexivity.
  destruct (run_ops_room (removelast (main box stk_main stk_run)) p0 Hc0)
    as (p & Hrun & Hc & Hs & Hl).
  { rewrite Hd0, Hq0, Hcount. cbn [length]. lia. }
  rewrite Hd0, Hq0, Hcount in Hl. cbn [length] in Hl.
  assert (Hblock : Infof stk_run (lit "log entry #%d") [box 99] p = Blocked)
    by (apply (entry_blocks stk_run (priInfo (jnl p)) _ _ p Hc Hl)).
  split; [|split; [|split]].
  - rewrite Hsplit, run_ops_app, Hrun. cbn [run_ops exec]. rewrite Hblock.
    reflexivity.
  - exists p. auto.
  - intros s Hsteps Hnone.
    destruct (ticks_keep 0 (main box stk_main stk_run, mkSys p0 None None)
                ([], s) Hc0 Hsteps) as (Hc' & Hm & _).
    cbn [fst snd proc assembling] in Hm, Hc'. unfold records in Hm.
    cbn [proc assembled received held] in Hm. rewrite Hnone, Hd0, Hq0 in Hm.
    cbn [held] in Hm.
    change (assembling false (main box stk_main stk_run)) with 101%nat in Hm.
    rewrite !length_app in Hm. cbn [length] in Hm.
    destruct (c_writes (proc s) Hc') as (c & Hw & _ & Hcap).
    assert (Hq' : (length (queued (proc s)) <= 100)%nat)
      by (unfold queued; rewrite Hw; exact Hcap).
    split; lia.
  - destruct (constructed_shape p Hc) as (d & s0 & ev & m & q & cs & -> & _).
    rewrite queued_shaped in Hl. rewrite sent_shaped in Hs.
    destruct q as [|msg rest]; [discriminate Hl|]. cbn [length] in Hl.
    assert (Hc2 : constructed (shaped d s0 ev m rest cs))
      by (apply shape_constructed; lia).
    destruct (exec_room (OpInfof stk_run (lit "log entry #%d") [box 99])
                (shaped d s0 ev m rest cs) Hc2) as [p3 Hex].
    { rewrite queued_shaped. cbn [assembling]. lia. }
    destruct (exec_counts _ _ p3 Hc2 Hex) as (_ & Hs3 & Hl3 & _).
    rewrite sent_shaped in Hs3. rewrite queued_shaped in Hl3.
    cbn [assembling] in Hl3.
    exists (mkSys p3 None (Some msg)). cbn [proc assembled received].
    split.
    + rewrite Hsplit.
      apply (ticks_with_receive _ _ p0 (shaped d s0 ev m (msg :: rest) cs)
               (shaped d s0 ev m rest cs) p3 msg Hrun).
      * cbn. lia.
      * apply chanrecv_shape.
      * cbn [run_ops]. rewrite Hex. reflexivity.
    + split; [reflexivity|]. split; [congruence|].
      split; [eexists; reflexivity|lia].
Qed.

End DemoProgram.

(** The demo in the model environment: with the writer standing still
    the calls do not all return; with one receive of the writer they
    do, and nothing has been written yet. *)
Lemma demo_needs_the_writer_witness :
  @run_ops Demo.env (@main Demo.env (fun i => i) Demo.stack Demo.stack)
           Demo.start = None /\
  (exists s,
      rtc (@tick Demo.env)
          (@main Demo.env (fun i => i) Demo.stack Demo.stack,
           mkSys Demo.start None None) ([], s) /\
      assembled s = None /\
      sent (proc s) = sent Demo.start /\
      is_Some (received s) /\
      length (queued (proc s)) = 100%nat).
Proof.
  destruct (@demo_needs_the_writer Demo.env (fun i => i) Demo.stack Demo.stack
              Demo.start eq_refl) as (Hnone & _ & _ & Hrun).
  split; [exact Hnone|exact Hrun].
Defined.

(** ** Whole records *)

Section WholeRecords.
Context `{Env}.
Import Wire.

Lemma encode_fields_app (fs fs' : list (bytes * bytes)) :
  encode_fields (fs ++ fs') = encode_fields fs ++ encode_fields fs'.
Proof. unfold encode_fields. now rewrite map_app, concat_app. Qed.

(** X14. Every record reads back.  If the extra-variables buffer holds
    the variables [vars], none with a newline in its name, the record
    an [Infof] puts in the channel reads back as PRIORITY=6, the three
    caller-location fields of the frame the walk stops at, the
    variables in the order they were added, and the MESSAGE, as many
    fields as that and no other bytes. *)
Theorem records_read_back (sym : Z -> Frame) (p : Proc)
        (vars : list (bytes * bytes))
        (stk : list Frame) (fmt : bytes) (args : list Arg) :
  reachable (symbolized sym) p ->
  symbolized sym stk ->
  (length (queued p) < 100)%nat ->
  extra p = writeFields [] vars ->
  Forall readable vars ->
  Z.of_nat (length (File (callerFrame stk))) < 2 ^ 64 ->
  Z.of_nat (length (Function (callerFrame stk))) < 2 ^ 64 ->
  Z.of_nat (length (Fprintf fmt args)) < 2 ^ 64 ->
  exists p' r,
    Infof stk fmt args p = Done tt p' /\
    queued p' = queued p ++ [r] /\
    parse_record r
    = Some ([ (lit "PRIORITY", lit "6");
              (lit "CODE_FILE", File (callerFrame stk));
              (lit "CODE_LINE", Strconv.AppendInt [] (Line (callerFrame stk)));
              (lit "CODE_FUNC", Function (callerFrame stk)) ]
            ++ vars
            ++ [ (lit "MESSAGE", Fprintf fmt args) ]).
Proof.
  intros Hr Hsym Hroom Hextra Hvars Hfile Hfunc Hmsg.
  pose proof (reachable_constructed _ p Hr) as Hc.
  pose proof (reachable_coherent sym p Hr) as Hco.
  destruct (leveled_record sym p stk (priInfo (jnl p)) fmt args
              Hc Hco Hsym Hroom) as (p' & Hrun & Hq).
  exists p'. eexists. split; [exact Hrun|]. split; [exact Hq|].
  rewrite (c_priInfo p Hc), Hextra, writeFields_app, encodeCodePos_fields.
  cbn [app].
  match goal with
  | |- parse_record ?r = Some ?fs => replace r with (encode_fields fs)
  end.
  - apply parse_record_encode.
    destruct names_no_newline as (Hn1 & Hn2 & Hn3 & _ & Hn5).
    repeat (apply Forall_cons; split;
            [split; cbn [fst snd];
             try assumption; try exact PRIORITY_no_newline;
             try apply AppendInt_length; reflexivity|]).
    apply Forall_app. split; [exact Hvars|].
    apply Forall_cons. split; [split; assumption|constructor].
  - rewrite !app_comm_cons, !encode_fields_app.
    unfold encode_fields. cbn [map concat fst snd].
    rewrite <- !app_assoc. cbn [app]. rewrite ?app_nil_r. reflexivity.
Qed.

Lemma exec_extra (op : Op) (p p' : Proc) :
  constructed p ->
  exec op p = Done tt p' ->
  extra p' = extra p ++ writeFields [] (added [op]).
Proof.
  intros Hc Hex.
  destruct (constructed_shape p Hc) as (d & s & ev & m & q & cs & -> & Hq).
  assert (Hentry : forall stk pre fmt args,
             entry stk pre fmt args (shaped d s ev m q cs) = Done tt p' ->
             extra p' = ev ++ []).
  { intros stk pre fmt args. rewrite entry_shape. cbv zeta.
    destruct (length q <? 100)%nat;
      destruct (m !! PC (callerFrame stk)); try discriminate;
      intros [= <-]; rewrite app_nil_r; reflexivity. }
  change (extra (shaped d s ev m q cs)) with ev.
  destruct op as [b|name value|stk fmt args|stk fmt args|stk fmt args];
    cbn [exec added] in *.
  - injection Hex as <-. rewrite app_nil_r. reflexivity.
  - rewrite AddVariable_shape in Hex. injection Hex as <-.
    rewrite writeFields_app. unfold encode_fields.
    cbn [map concat fst snd app]. rewrite app_nil_r. reflexivity.
  - rewrite Debugf_shape in Hex. destruct d; [exact (Hentry _ _ _ _ Hex)|].
    injection Hex as <-. rewrite app_nil_r. reflexivity.
  - rewrite Infof_shape in Hex. exact (Hentry _ _ _ _ Hex).
  - rewrite Errorf_shape in Hex. exact (Hentry _ _ _ _ Hex).
Qed.

Lemma added_cons (op : Op) (ops : list Op) :
  added (op :: ops) = added [op] ++ added ops.
Proof. destruct op; reflexivity. Qed.

Lemma run_extra (ops : list Op) (p p' : Proc) :
  constructed p ->
  run ops p p' ->
  extra p' = extra p ++ writeFields [] (added ops).
Proof.
  intros Hc Hrun.
  induction Hrun as [p|op ops p p1 p2 Hex _ IH|ops p p1 p2 Hw _ IH].
  - cbn. now rewrite app_nil_r.
  - pose proof (exec_extends op p p1 Hc Hex) as (Hc1 & _).
    rewrite (IH Hc1), (exec_extra op p p1 Hc Hex), (added_cons op ops).
    rewrite !writeFields_app. cbn [app].
    rewrite encode_fields_app, app_assoc. reflexivity.
  - pose proof (writer_extends p p1 Hc Hw) as (Hc1 & _).
    rewrite (IH Hc1). f_equal.
    destruct (constructed_shape p Hc) as (d & s & ev & m & q & cs & -> & Hq).
    rewrite writer_shape in Hw. destruct q; [discriminate|].
    injection Hw as <-. reflexivity.
Qed.

(** X15. The extra-variables buffer holds exactly the variables added
    so far, in the order in which [AddVariable] was called, each as one
    field: no other call writes to it, and neither the logging calls,
    nor assigning [Debug], nor the writer change it. *)
Theorem extra_holds_the_added_variables (ops : list Op) (p0 p : Proc) :
  fst New = Some p0 ->
  run ops p0 p ->
  extra p = writeFields [] (added ops).
Proof.
  intros Hnew Hrun.
  destruct (New_constructed (fun _ => zeroFrame) p0 Hnew) as [Hc0 _].
  rewrite (run_extra ops p0 p Hc0 Hrun).
  destruct (New_shape p0 Hnew) as [s ->]. reflexivity.
Qed.

End WholeRecords.

Lemma two_variables_run :
  exists p,
    @run Demo.env
      [@OpAddVariable Demo.env (lit "FOO") (lit "bar");
       @OpInfof Demo.env Demo.stack (lit "x=%d") [1];
       @OpAddVariable Demo.env (lit "SESSION") [x0a; xff]]
      Demo.start p.
Proof.
  eexists. apply (@run_ops_run Demo.env). vm_compute. reflexivity.
Qed.

Lemma extra_holds_the_added_variables_witness :
  exists p,
    @run Demo.env
      [@OpAddVariable Demo.env (lit "FOO") (lit "bar");
       @OpInfof Demo.env Demo.stack (lit "x=%d") [1];
       @OpAddVariable Demo.env (lit "SESSION") [x0a; xff]]
      Demo.start p /\
    extra p
    = writeFields [] [(lit "FOO", lit "bar"); (lit "SESSION", [x0a; xff])].
Proof.
  destruct two_variables_run as [p Hrun]. exists p. split; [exact Hrun|].
  apply (@extra_holds_the_added_variables Demo.env _ Demo.start p eq_refl Hrun).
Defined.

Lemma records_read_back_witness :
  exists p' r,
    @Infof Demo.env Demo.stack (lit "x=%d") [1] Demo.start = Done tt p' /\
    queued p' = [r] /\
    Wire.parse_record r
    = Some [ (lit "PRIORITY", lit "6");
             (lit "CODE_FILE", lit "cmd/demo/journal.go");
             (lit "CODE_LINE", lit "31");
             (lit "CODE_FUNC", lit "main.runTest");
             (lit "MESSAGE", lit "x=1") ].
Proof.
  apply (@records_read_back Demo.env Demo.sym Demo.start []
           Demo.stack (lit "x=%d") [1]).
  - apply start_reachable.
  - reflexivity.
  - cbn. lia.
  - reflexivity.
  - constructor.
  - vm_compute. reflexivity.
  - vm_compute. reflexivity.
  - vm_compute. reflexivity.
Defined.
